(** * ukebook_helper: the matcher and the navigation loop

    A shallow embedding of [matcher.py], of the dialogs of [ui.py], of
    the processing loop of [__main__.py], of the setlist reader of
    [models.py] and of the client of [client.py], with the properties
    of the match-and-navigate engine proved about them.

    Python [int] is [Z], [str] is [string], a [NamedTuple] is a record, a
    [dict] is an association list in insertion order (its keys are
    pairwise distinct, see [dict_wf]), and the operator is the sequence
    of keys typed at the terminal. *)

From Stdlib Require Import ZArith List String Ascii Bool Lia Sorted.
From Stdlib Require DecimalString DecimalNat DecimalFacts.
Import ListNotations.

Local Open Scope string_scope.
Local Open Scope list_scope.
Local Open Scope Z_scope.

Set Implicit Arguments.

(** ** models.py *)

(** [class Song(NamedTuple)] *)
Record Song : Type := mkSong {
  song_title : string;
  song_artist : string;
  href : string
}.

(** [class InputSong(NamedTuple)] *)
Record InputSong : Type := mkInputSong {
  title : string;
  artist : string;
  gema_nr : string;
  leader : string
}.

(** An element of the list [read_input_list] returns: an [InputSong] or
    the string ["Break"] (the only string the parser ever appends). *)
Inductive Entry : Type :=
| EntrySong (s : InputSong)
| EntryBreak.

(** ** Python containers *)

(** [Dict[str, V]], iterated by [.items()] in insertion order. *)
Definition dict (V : Type) : Type := list (string * V).

(** The keys of a dict are pairwise distinct. *)
Definition dict_wf {V : Type} (d : dict V) : Prop := NoDup (map fst d).

(** [d.get(k)] *)
Fixpoint dict_get {V : Type} (d : dict V) (k : string) : option V :=
  match d with
  | [] => None
  | (k', v) :: d' => if String.eqb k' k then Some v else dict_get d' k
  end.

(** [len(l)] *)
Definition len {A : Type} (l : list A) : Z := Z.of_nat (List.length l).

(** [l[i]] with Python's negative indices; [None] stands for
    [IndexError]. *)
Definition py_index {A : Type} (l : list A) (i : Z) : option A :=
  if i <? 0
  then (if len l + i <? 0 then None else nth_error l (Z.to_nat (len l + i)))
  else nth_error l (Z.to_nat i).

(** [sorted(l, key=key)]: Python's sort is stable, and a stable sort has
    one possible result, so it is given here as a stable insertion
    sort.  [insert_by] puts [x], which came first in the input, in front
    of the elements whose key is not smaller. *)
Section Sorted.
Variable A : Type.
Variable key : A -> Z.

Fixpoint insert_by (x : A) (l : list A) : list A :=
  match l with
  | [] => [x]
  | y :: l' => if key x <=? key y then x :: y :: l' else y :: insert_by x l'
  end.

Fixpoint sorted (l : list A) : list A :=
  match l with
  | [] => []
  | x :: l' => insert_by x (sorted l')
  end.
End Sorted.

(** ** Python strings

    A character of a [string] stands for a code point below 256. *)

(** The tab character, the line feed and the carriage return. *)
Definition tab : ascii := "009".
Definition line_feed : ascii := "010".
Definition carriage_return : ascii := "013".

(** [c.isspace()] for a code point below 256: U+0009 to U+000D, U+001C
    to U+0020, U+0085 and U+00A0. *)
Definition isspace (c : ascii) : bool :=
  let n := nat_of_ascii c in
  ((9 <=? n)%nat && (n <=? 13)%nat)
  || ((28 <=? n)%nat && (n <=? 32)%nat)
  || (n =? 133)%nat || (n =? 160)%nat.

(** [s.lstrip(chars)]: drop the leading characters that [drop] holds
    of. *)
Fixpoint lstrip_chars (drop : ascii -> bool) (s : list ascii) : list ascii :=
  match s with
  | [] => []
  | c :: s' => if drop c then lstrip_chars drop s' else s
  end.

(** [s.rstrip(chars)]: drop the trailing characters that [drop] holds
    of. *)
Fixpoint rstrip_chars (drop : ascii -> bool) (s : list ascii) : list ascii :=
  match s with
  | [] => []
  | c :: s' =>
      match rstrip_chars drop s' with
      | [] => if drop c then [] else [c]
      | kept => c :: kept
      end
  end.

(** [s.split(sep)] for a separator of one character; the empty string
    splits into one empty part. *)
Fixpoint split_chars (sep : ascii) (s : list ascii) : list (list ascii) :=
  match s with
  | [] => [[]]
  | c :: s' =>
      if Ascii.eqb c sep then [] :: split_chars sep s'
      else
        match split_chars sep s' with
        | part :: parts => (c :: part) :: parts
        | [] => [[c]]
        end
  end.

(** [s.strip()] *)
Definition str_strip (s : string) : string :=
  string_of_list_ascii
    (rstrip_chars isspace (lstrip_chars isspace (list_ascii_of_string s))).

(** [s.rstrip('/')] *)
Definition str_rstrip_slash (s : string) : string :=
  string_of_list_ascii
    (rstrip_chars (Ascii.eqb "/") (list_ascii_of_string s)).

(** [s.split('\t')] *)
Definition str_split_tab (s : string) : list string :=
  map string_of_list_ascii (split_chars "009" (list_ascii_of_string s)).

(** [str(n)] for an index. *)
Definition str_of_nat (n : nat) : string :=
  DecimalString.NilEmpty.string_of_uint (Nat.to_uint n).

(** [str(n)] for an [int]. *)
Definition str_of_int (n : Z) : string :=
  if n <? 0 then ("-" ++ str_of_nat (Z.to_nat (- n)))%string
  else str_of_nat (Z.to_nat n).

(** [sep.join(parts)] *)
Fixpoint str_join (sep : string) (parts : list string) : string :=
  match parts with
  | [] => ""
  | [part] => part
  | part :: parts' => (part ++ sep ++ str_join sep parts')%string
  end.

(** [enumerate(l)], counting from [start]. *)
Fixpoint enumerate_from {A : Type} (start : Z) (l : list A) : list (Z * A) :=
  match l with
  | [] => []
  | a :: l' => (start, a) :: enumerate_from (start + 1) l'
  end.

(** ** thefuzz *)

Module Fuzz.

(** Modelled from the spec: [fuzz.ratio] belongs to the third-party
    package thefuzz, which is not among the sources.  The spec gives
    it as an edit-distance-based ratio, Levenshtein-style,
    [score = 100 * (1 - normalizedEditDistance)], an integer in 0..100,
    symmetric and case-sensitive.  The edit distance below counts
    single-character insertions and deletions (replacing a character
    is one deletion and one insertion), and is normalised by the
    largest distance two strings of these lengths can have, the sum of
    the lengths. *)
Fixpoint edit_distance (xs : list ascii) : list ascii -> nat :=
  match xs with
  | [] => fun ys => List.length ys
  | x :: xs' =>
      fix against (ys : list ascii) : nat :=
        match ys with
        | [] => List.length xs
        | y :: ys' =>
            if Ascii.eqb x y then edit_distance xs' ys'
            else S (Nat.min (edit_distance xs' ys) (against ys'))
        end
  end.

(** Modelled from the spec: the score is an integer, so the quotient
    [num / den] is rounded, here to the nearest integer, a tie going to
    the even neighbour as with Python's [round]. *)
Definition round_div (num den : Z) : Z :=
  let q := num / den in
  let r := num mod den in
  if 2 * r <? den then q
  else if den <? 2 * r then q + 1
  else if Z.even q then q else q + 1.

(** Modelled from the spec: [100 * (1 - d / total)] as an integer;
    two empty strings are at distance 0 and score 100. *)
Definition ratio (s1 s2 : string) : Z :=
  let xs := list_ascii_of_string s1 in
  let ys := list_ascii_of_string s2 in
  let total := Z.of_nat (List.length xs + List.length ys) in
  let d := Z.of_nat (edit_distance xs ys) in
  if total =? 0 then 100 else round_div (100 * (total - d)) total.

End Fuzz.

(** ** matcher.py *)

(** [class Match(NamedTuple)] *)
Record Match : Type := mkMatch {
  display_name : string;
  song : Song;
  similarity : Z
}.

Section Matcher.

(** [fuzz.ratio], the scorer [find_matches] calls. *)
Variable ratio : string -> string -> Z.

(** [f"{input_song.title} - {input_song.artist}"] *)
Definition search_string (input_song : InputSong) : string :=
  (title input_song ++ " - " ++ artist input_song)%string.

(** The body of [for display_name, song in available_songs.items()]. *)
Definition consider (search : string) (threshold : Z)
    (matches : list Match) (item : string * Song) : list Match :=
  let (display_name, song) := item in
  let similarity := ratio search display_name in
  if similarity >=? threshold
  then matches ++ [mkMatch display_name song similarity]
  else matches.

(** [find_matches(input_song, available_songs, threshold)] *)
Definition find_matches (input_song : InputSong)
    (available_songs : dict Song) (threshold : Z) : list Match :=
  let matches :=
    fold_left (consider (search_string input_song) threshold)
              available_songs [] in
  sorted similarity matches.

End Matcher.

(** [threshold: int = 60] *)
Definition default_threshold : Z := 60.

(** ** The terminal

    The operator is the sequence of keys typed.  A computation reads
    keys from the front of that sequence; it returns, raises, leaves the
    process through [sys.exit], or is still waiting for a key when the
    sequence ends.  [S] is the type of the variables the computation can
    assign.  Text printed to the screen is not modelled.  [KeyCtrlD] is
    the key that ends the input of a line-reading program. *)

Inductive key : Type :=
| KeyUp | KeyDown | KeyEnter | KeyCtrlC | KeyCtrlD | KeyOther.

(** [ExpatError] is what [prompt_toolkit]'s [HTML] raises on a text its
    XML parser refuses. *)
Inductive exn : Type :=
| KeyboardInterrupt | IndexError | EOFError | ExpatError.

Inductive result (S A : Type) : Type :=
| Ret (a : A) (s : S) (rest : list key)
| Raise (e : exn) (s : S)
| SysExit (code : Z) (s : S)
| Waiting (s : S).

Arguments Ret {S A} a s rest.
Arguments Raise {S A} e s.
Arguments SysExit {S A} code s.
Arguments Waiting {S A} s.

Definition M (S A : Type) : Type := S -> list key -> result S A.

Definition ret {S A : Type} (a : A) : M S A := fun s keys => Ret a s keys.

Definition bind {S A B : Type} (c : M S A) (k : A -> M S B) : M S B :=
  fun s keys =>
    match c s keys with
    | Ret a s' rest => k a s' rest
    | Raise e s' => Raise e s'
    | SysExit code s' => SysExit code s'
    | Waiting s' => Waiting s'
    end.

Notation "x <- c ;; k" := (bind c (fun x => k))
  (at level 61, c at next level, right associativity).
Notation "c ;; k" := (bind c (fun _ => k))
  (at level 61, right associativity).

Definition raise {S A : Type} (e : exn) : M S A := fun s _ => Raise e s.

(** [sys.exit(code)] *)
Definition sys_exit {S A : Type} (code : Z) : M S A :=
  fun s _ => SysExit code s.

Definition get {S : Type} : M S S := fun s keys => Ret s s keys.

Definition modify {S : Type} (f : S -> S) : M S unit :=
  fun s keys => Ret tt (f s) keys.

(** [try: c  except KeyboardInterrupt: handler] *)
Definition try_except {S A : Type} (c handler : M S A) : M S A :=
  fun s keys =>
    match c s keys with
    | Raise KeyboardInterrupt s' => handler s' keys
    | r => r
    end.

(** A function with no access to the caller's variables. *)
Definition console (A : Type) : Type := M unit A.

Definition call {S A : Type} (c : console A) : M S A :=
  fun s keys =>
    match c tt keys with
    | Ret a _ rest => Ret a s rest
    | Raise e _ => Raise e s
    | SysExit code _ => SysExit code s
    | Waiting _ => Waiting s
    end.

(** [l[i]], raising [IndexError] out of range. *)
Definition subscript {S A : Type} (l : list A) (i : Z) : M S A :=
  match py_index l i with
  | Some a => ret a
  | None => raise IndexError
  end.

(** [input()]: the line typed up to Enter is thrown away by every
    caller; Ctrl-C raises [KeyboardInterrupt], and Ctrl-D, the end of
    the input, raises [EOFError]. *)
Fixpoint input (s : unit) (keys : list key) : result unit unit :=
  match keys with
  | [] => Waiting s
  | KeyEnter :: rest => Ret tt s rest
  | KeyCtrlC :: _ => Raise KeyboardInterrupt s
  | KeyCtrlD :: _ => Raise EOFError s
  | _ :: rest => input s rest
  end.

(** ** ui.py *)

(** [application.run()] under the key bindings the three dialogs share:
    up and down move [selected_index] cyclically over [n] choices, Enter
    leaves the dialog, Ctrl-C leaves the process with [sys.exit(0)]; no
    other key is bound.  It returns [selected_index] as Enter found
    it.  [confirm_action] and [confirm_break] show constant texts
    without markup of their own, which [HTML] accepts. *)
Fixpoint application_run (n selected_index : Z) (s : unit)
    (keys : list key) : result unit Z :=
  match keys with
  | [] => Waiting s
  | KeyUp :: rest => application_run n ((selected_index - 1) mod n) s rest
  | KeyDown :: rest => application_run n ((selected_index + 1) mod n) s rest
  | KeyEnter :: rest => Ret selected_index s rest
  | KeyCtrlC :: _ => SysExit 0 s
  | KeyCtrlD :: rest => application_run n selected_index s rest
  | KeyOther :: rest => application_run n selected_index s rest
  end.

(** The marker of the highlighted choice, ["  \u25b6 "]: the code point
    U+25B6 is held as the three bytes of its UTF-8 form. *)
Definition marker : string :=
  String " " (String " " (String "226" (String "150" (String "182" " ")))).

(** The choices of [select_match], line 29. *)
Definition select_choices (matches : list Match)
    : list (option Match * string) :=
  map (fun m => (Some m, display_name m)) matches
  ++ [(None, "Skip"); (None, "Go back")].

(** [get_choice_text(index, choice)] of [select_match], lines 32-57.
    Every choice without a match has one of the two labels. *)
Definition get_choice_text (selected_index index : Z)
    (choice : option Match * string) : string :=
  let is_selected := index =? selected_index in
  let prefix := if is_selected then marker else "    " in
  let virtual :=
    String.eqb (snd choice) "Skip" || String.eqb (snd choice) "Go back" in
  let song_text :=
    match fst choice with
    | Some m =>
        let display_name := display_name m in
        let display_name :=
          if (50 <? String.length display_name)%nat
          then (substring 0 47 display_name ++ "...")%string
          else display_name in
        (display_name ++ " (" ++ str_of_int (similarity m) ++ "%)")%string
    | None => snd choice
    end in
  if is_selected then
    if virtual
    then (prefix ++ "<style fg='cyan'>" ++ snd choice ++ "</style>")%string
    else (prefix ++ "<style fg='cyan'>" ++ song_text ++ "</style>")%string
  else
    if virtual then (prefix ++ snd choice)%string
    else (prefix ++ song_text)%string.

(** The text that [get_formatted_text()] of [select_match] hands to
    [HTML], lines 61-63. *)
Definition formatted_text (song_title : string)
    (choices : list (option Match * string)) (selected_index : Z) : string :=
  let title :=
    ("Trying to match: <b>" ++ song_title ++ "</b>"
       ++ String line_feed "")%string in
  let choices_text :=
    str_join (String line_feed "")
      (map (fun ic => get_choice_text selected_index (fst ic) (snd ic))
           (enumerate_from 0 choices)) in
  (title ++ choices_text)%string.

Section Ui.

(** Whether the XML parser behind [prompt_toolkit]'s [HTML] accepts a
    text. *)
Variable html_ok : string -> bool.

(** [HTML(text)] *)
Definition HTML {S : Type} (text : string) : M S string :=
  if html_ok text then ret text else raise ExpatError.

(** [get_formatted_text()] of [select_match], lines 59-63. *)
Definition get_formatted_text {S : Type} (song_title : string)
    (choices : list (option Match * string)) (selected_index : Z)
    : M S string :=
  HTML (formatted_text song_title choices selected_index).

(** [application.run()] under the key bindings of [select_match]: as
    [application_run], but up and down call [get_formatted_text()]
    again for the new [selected_index], lines 73 and 79.  An
    [ExpatError] raised there is taken to end the dialog as the one of
    line 97 does. *)
Fixpoint select_run (song_title : string)
    (choices : list (option Match * string)) (selected_index : Z)
    (s : unit) (keys : list key) : result unit Z :=
  match keys with
  | [] => Waiting s
  | KeyUp :: rest =>
      let selected_index := (selected_index - 1) mod len choices in
      if html_ok (formatted_text song_title choices selected_index)
      then select_run song_title choices selected_index s rest
      else Raise ExpatError s
  | KeyDown :: rest =>
      let selected_index := (selected_index + 1) mod len choices in
      if html_ok (formatted_text song_title choices selected_index)
      then select_run song_title choices selected_index s rest
      else Raise ExpatError s
  | KeyEnter :: rest => Ret selected_index s rest
  | KeyCtrlC :: _ => SysExit 0 s
  | KeyCtrlD :: rest => select_run song_title choices selected_index s rest
  | KeyOther :: rest => select_run song_title choices selected_index s rest
  end.

(** [select_match(matches, song_title)]: the text is built and handed
    to [HTML] at line 97, before the dialog runs. *)
Definition select_match (matches : list Match) (song_title : string)
    : console (option Match * bool) :=
  let choices := select_choices matches in
  let selected_index := len matches - 1 in
  get_formatted_text song_title choices selected_index ;;
  selected_index <- select_run song_title choices selected_index ;;
  choice <- subscript choices selected_index ;;
  if String.eqb (snd choice) "Go back"
  then ret (None, true)
  else ret (fst choice, false).

End Ui.

(** [confirm_action(prompt_text)] *)
Definition confirm_action : console bool :=
  let choices := [(true, "Yes"); (false, "No")] in
  let selected_index := 0 in
  selected_index <- application_run (len choices) selected_index ;;
  choice <- subscript choices selected_index ;;
  ret (fst choice).

(** [confirm_break()]; the first component of the ["Go back"] choice is
    [None], which that branch never stores. *)
Definition confirm_break : console (bool * bool) :=
  let choices :=
    [(Some true, "Take a break"); (Some false, "Skip break");
     (None, "Go back")] in
  let selected_index := 0 in
  selected_index <- application_run (len choices) selected_index ;;
  choice <- subscript choices selected_index ;;
  if String.eqb (snd choice) "Go back"
  then ret (false, true)
  else ret (match fst choice with Some b => b | None => false end, false).

(** ** __main__.py: the processing loop of [main] *)

(** The variables of [main] the loop assigns, and the addresses it has
    handed to [webbrowser.open], oldest first. *)
Record state : Type := mkState {
  i : Z;
  selected_songs : list (string * option Match);
  opened : list string
}.

Definition set_i (v : Z) (st : state) : state :=
  mkState v (selected_songs st) (opened st).

(** [selected_songs.append(r)] *)
Definition append_selected (r : string * option Match) (st : state) : state :=
  mkState (i st) (selected_songs st ++ [r]) (opened st).

(** [webbrowser.open(url)] *)
Definition webbrowser_open (url : string) (st : state) : state :=
  mkState (i st) (selected_songs st) (opened st ++ [url]).

(** The state in which the loop is entered. *)
Definition initial : state := mkState 0 [] [].

(** Truth value of [config.get('break_url')]: [None] and the empty
    string count as not configured. *)
Definition truthy (v : option string) : bool :=
  match v with
  | Some s => negb (String.eqb s "")
  | None => false
  end.

Definition str (v : option string) : string :=
  match v with Some s => s | None => "" end.

(** The number of times the cursor moved forward along a sequence of
    states. *)
Fixpoint advances (trace : list state) : nat :=
  match trace with
  | st :: ((st' :: _) as trace') =>
      ((if (i st <? i st')%Z then 1 else 0) + advances trace')%nat
  | _ => 0%nat
  end.

Section Main.

(** [fuzz.ratio], [urllib.parse.urljoin] and the parser of [HTML]. *)
Variable ratio : string -> string -> Z.
Variable urljoin : string -> string -> string.
Variable html_ok : string -> bool.

(** What [main] has read before the loop starts. *)
Variable host_url : string.
Variable break_url : option string.
Variable available_songs : dict Song.
Variable input_songs : list Entry.

(** [try: input()  except KeyboardInterrupt: ...; sys.exit(0)]; an
    [EOFError] is not caught. *)
Definition input_or_cancel : M state unit :=
  try_except (call input) (sys_exit 0).

(** Lines 126-139, after [confirm_break()] has returned. *)
Definition on_break (answer : bool * bool) : M state unit :=
  let (take_break, go_back) := answer in
  if go_back then modify (fun st => set_i (Z.max 0 (i st - 1)) st)
  else if take_break then
    modify (append_selected ("break", None)) ;;
    modify (webbrowser_open (urljoin host_url (str break_url))) ;;
    input_or_cancel ;;
    modify (fun st => set_i (i st + 1) st)
  else modify (fun st => set_i (i st + 1) st).

(** Lines 158-162, after [confirm_action("Skip this song?")]. *)
Definition on_no_match (skip : bool) : M state unit :=
  if skip then modify (fun st => set_i (i st + 1) st)
  else sys_exit 1.

(** Lines 166-179, after [select_match] has returned. *)
Definition on_select (answer : option Match * bool) : M state unit :=
  let (selected, go_back) := answer in
  if go_back then modify (fun st => set_i (Z.max 0 (i st - 1)) st)
  else
    match selected with
    | Some m =>
        modify (append_selected ("song", Some m)) ;;
        modify (webbrowser_open (urljoin host_url (href (song m)))) ;;
        modify (fun st => set_i (i st + 1) st)
    | None => modify (fun st => set_i (i st + 1) st)
    end.

(** The body of [while i < len(input_songs)], lines 116-179. *)
Definition loop_body : M state unit :=
  st <- get ;;
  entry <- subscript input_songs (i st) ;;
  match entry with
  | EntryBreak =>
      if negb (truthy break_url)
      then modify (fun st => set_i (i st + 1) st)
      else
        answer <- call confirm_break ;;
        on_break answer
  | EntrySong entry =>
      input_or_cancel ;;
      let matches :=
        find_matches ratio entry available_songs default_threshold in
      match matches with
      | [] =>
          skip <- call confirm_action ;;
          on_no_match skip
      | _ :: _ =>
          answer <- call (select_match html_ok matches
                   (title entry ++ " - " ++ artist entry)%string) ;;
          on_select answer
      end
  end.

(** [while i < len(input_songs): ...]; [None] when [fuel] iterations
    did not reach the end of the loop. *)
Fixpoint main_loop (fuel : nat) (st : state) (keys : list key)
    : option (result state unit) :=
  match fuel with
  | O => None
  | S fuel' =>
      if i st <? len input_songs then
        match loop_body st keys with
        | Ret _ st' rest => main_loop fuel' st' rest
        | r => Some r
        end
      else Some (Ret tt st keys)
  end.

(** The states in which the loop condition is evaluated during the
    first [n] iterations, in order. *)
Fixpoint visited (n : nat) (st : state) (keys : list key) : list state :=
  st ::
  match n with
  | O => []
  | S n' =>
      if i st <? len input_songs then
        match loop_body st keys with
        | Ret _ st' rest => visited n' st' rest
        | _ => []
        end
      else []
  end.

(** The state and the keys left where the loop condition is evaluated
    after [n] iterations, when each of them returns. *)
Fixpoint reached (n : nat) (st : state) (keys : list key)
    : option (state * list key) :=
  match n with
  | O => Some (st, keys)
  | S n' =>
      if i st <? len input_songs then
        match loop_body st keys with
        | Ret _ st' rest => reached n' st' rest
        | _ => None
        end
      else None
  end.

End Main.

(** ** A catalog, a setlist and an operator to run the definitions on *)

Module Scenario.

Definition song_a : InputSong := mkInputSong "Aa" "Xx" "101" "Ann".
Definition song_b : InputSong := mkInputSong "Bb" "Yy" "102" "Bob".
Definition song_c : InputSong := mkInputSong "Cc" "Zz" "103" "Cyd".
(** A song the catalog has nothing for. *)
Definition song_q : InputSong := mkInputSong "Qq" "Ww" "104" "Dee".

(** Labels as [fetch_songs] builds them: title, artist, position. *)
Definition catalog : dict Song :=
  [("Aa - Xx (0)", mkSong "Aa" "Xx" "/songbook/a");
   ("Bb - Yy (1)", mkSong "Bb" "Yy" "/songbook/b");
   ("Cc - Zz (2)", mkSong "Cc" "Zz" "/songbook/c")].

Definition match_a : Match :=
  mkMatch "Aa - Xx (0)" (mkSong "Aa" "Xx" "/songbook/a") 78.
Definition match_b : Match :=
  mkMatch "Bb - Yy (1)" (mkSong "Bb" "Yy" "/songbook/b") 78.
Definition match_c : Match :=
  mkMatch "Cc - Zz (2)" (mkSong "Cc" "Zz" "/songbook/c") 78.

(** Two labels that score alike against ["ab - c"], and one that
    scores higher. *)
Definition song_t : InputSong := mkInputSong "ab" "c" "105" "Eve".
Definition tied : dict Song :=
  [("ab - c", mkSong "ab" "c" "/t/0");
   ("ab - d", mkSong "ab" "d" "/t/1");
   ("ab - e", mkSong "ab" "e" "/t/2");
   ("zz", mkSong "zz" "" "/t/3")].

(** A stand-in for [urljoin] on a base without a path. *)
Definition urljoin (base url : string) : string := (base ++ url)%string.

Definition host_url : string := "http://uke".

(** A stand-in for the parser of [HTML] on texts whose only markup is
    what [ui.py] writes: a text with an ampersand is refused. *)
Definition html_ok (text : string) : bool :=
  negb (existsb (Ascii.eqb "&") (list_ascii_of_string text)).

(** Run the loop with thefuzz's scorer modelled by [Fuzz.ratio]. *)
Definition run (break_url : option string) (input_songs : list Entry)
    (fuel : nat) (keys : list key) : option (result state unit) :=
  main_loop Fuzz.ratio urljoin html_ok host_url break_url catalog
            input_songs fuel initial keys.

Definition three_songs : list Entry :=
  [EntrySong song_a; EntrySong song_b; EntrySong song_c].

Definition with_break : list Entry :=
  [EntrySong song_a; EntryBreak; EntrySong song_b].

(** Enter on the announcement, Enter on the highlighted match. *)
Definition pick : list key := [KeyEnter; KeyEnter].

(** Enter on the announcement, then down twice from the only match to
    ["Go back"], and Enter. *)
Definition go_back : list key := [KeyEnter; KeyDown; KeyDown; KeyEnter].

(** Enter on the announcement, down once to ["Skip"], and Enter. *)
Definition skip : list key := [KeyEnter; KeyDown; KeyEnter].

(** Enter on the announcement, down to ["No"], and Enter. *)
Definition decline : list key := [KeyEnter; KeyDown; KeyEnter].

(** Pick at index 0 and at index 1, go back at index 2, pick at
    index 1 again and at index 2. *)
Definition rewind_keys : list key :=
  pick ++ pick ++ go_back ++ pick ++ pick.

Definition record (m : Match) : string * option Match := ("song", Some m).

(** Three go-backs in a row at index 0. *)
Definition three_go_backs : list key := go_back ++ go_back ++ go_back.

(** The states in which [run] evaluates the loop condition. *)
Definition states (break_url : option string) (input_songs : list Entry)
    (n : nat) (keys : list key) : list state :=
  visited Fuzz.ratio urljoin html_ok host_url break_url catalog
          input_songs n initial keys.

(** One iteration of [run] from a given state. *)
Definition iteration (break_url : option string)
    (input_songs : list Entry) : M state unit :=
  loop_body Fuzz.ratio urljoin html_ok host_url break_url catalog
            input_songs.

(** A configured break destination and a setlist that is one break. *)
Definition break_page : option string := Some "/break".
Definition only_break : list Entry := [EntryBreak].

(** A setlist that starts with a song the catalog has nothing for. *)
Definition unknown_first : list Entry :=
  [EntrySong song_q; EntrySong song_a].

(** A song with an ampersand in its title, and a catalog that has
    it. *)
Definition song_r : InputSong := mkInputSong "R&B" "Vv" "106" "Fay".
Definition catalog_r : dict Song :=
  [("R&B - Vv (0)", mkSong "R&B" "Vv" "/songbook/r")].

End Scenario.

(** [d[k] = v]: the value of a key the dict has is replaced where it
    stands, a new key goes to the end. *)
Fixpoint dict_set {V : Type} (d : dict V) (k : string) (v : V) : dict V :=
  match d with
  | [] => [(k, v)]
  | (k', v') :: d' =>
      if String.eqb k' k then (k', v) :: d'
      else (k', v') :: dict_set d' k v
  end.

(** Exceptions that leave the functions below. *)
Inductive raised : Type :=
| FileNotFoundError
| OSError
| UnicodeDecodeError
| RuntimeError
| PartsIndexError.

(** ** models.py: reading the setlist *)

(** The body of [for line in f], lines 40-60, on the list built so far.
    [parts[0]] raises when there is no part. *)
Definition read_line (songs : list Entry) (line : string)
    : raised + list Entry :=
  let line := str_strip line in
  if String.eqb line "" then inr songs
  else
    let parts := map str_strip (str_split_tab line) in
    match parts with
    | [] => inl PartsIndexError
    | p0 :: _ =>
        if String.eqb p0 "Break" then inr (songs ++ [EntryBreak])
        else if len parts >=? 4 then
          match parts with
          | t :: a :: g :: l :: _ =>
              inr (songs ++ [EntrySong (mkInputSong t a g l)])
          | _ => inl PartsIndexError
          end
        else inr songs
    end.

Fixpoint read_lines (songs : list Entry) (lines : list string)
    : raised + list Entry :=
  match lines with
  | [] => inr songs
  | line :: lines' =>
      match read_line songs line with
      | inr songs' => read_lines songs' lines'
      | inl e => inl e
      end
  end.

(** What [read_input_list] finds at a path: nothing; a file that
    [path.open] refuses (a directory, a file without read permission);
    bytes that are not UTF-8; or the text that the bytes decode to. *)
Inductive text_file : Type :=
| Missing
| Unopenable
| Undecodable
| Text (content : string).

(** The newline translation of a file opened in text mode: a carriage
    return, with the line feed that follows it if one does, is read as
    one line feed.  [after_cr] tells that the character before was a
    carriage return. *)
Fixpoint universal_newlines (after_cr : bool) (s : list ascii) : list ascii :=
  match s with
  | [] => []
  | c :: s' =>
      if Ascii.eqb c carriage_return
      then line_feed :: universal_newlines true s'
      else if Ascii.eqb c line_feed then
        if after_cr then universal_newlines false s'
        else line_feed :: universal_newlines false s'
      else c :: universal_newlines false s'
  end.

(** The lines of a translated text, each with the line feed that ends
    it; the last line may have none. *)
Fixpoint lines_of (s : list ascii) : list (list ascii) :=
  match s with
  | [] => []
  | c :: s' =>
      if Ascii.eqb c line_feed then [c] :: lines_of s'
      else
        match lines_of s' with
        | line :: lines => (c :: line) :: lines
        | [] => [[c]]
        end
  end.

(** [for line in f]: the lines that iterating over the open file
    yields. *)
Definition file_lines (content : string) : list string :=
  map string_of_list_ascii
      (lines_of (universal_newlines false (list_ascii_of_string content))).

(** [read_input_list(filepath)], lines 33-62. *)
Definition read_input_list (file : text_file) : raised + list Entry :=
  match file with
  | Missing => inl FileNotFoundError
  | Unopenable => inl OSError
  | Undecodable => inl UnicodeDecodeError
  | Text content => read_lines [] (file_lines content)
  end.

(** ** client.py *)

(** [class UkebookClient]: the fields the methods below read and
    assign. *)
Record UkebookClient : Type := mkClient {
  client_host_url : string;
  _logged_in : bool
}.

(** [UkebookClient.__init__(host_url)] *)
Definition new_client (host_url : string) : UkebookClient :=
  mkClient (str_rstrip_slash host_url) false.

(** [login]; [response] is the status code of the answer to the POST,
    [None] when [requests] raised [RequestException]. *)
Definition login (self : UkebookClient) (response : option Z)
    : UkebookClient * bool :=
  match response with
  | Some status_code =>
      if (status_code =? 301) || (status_code =? 302)
      then (mkClient (client_host_url self) true, true)
      else (self, false)
  | None => (self, false)
  end.

(** [is_logged_in] *)
Definition is_logged_in (self : UkebookClient) : bool := _logged_in self.

(** What the loop of [fetch_songs] reads off an [<a>] element of the
    song list: the stripped text of its title element and of its artist
    element, when it has them, and its [href] attribute. *)
Record song_link : Type := mkLink {
  title_elem : option string;
  artist_elem : option string;
  href_attr : option string
}.

(** The key [fetch_songs] stores a song under, line 97. *)
Definition song_key (title artist : string) (idx : nat) : string :=
  if negb (String.eqb artist "")
  then (title ++ " - " ++ artist ++ " (" ++ str_of_nat idx ++ ")")%string
  else (title ++ " (" ++ str_of_nat idx ++ ")")%string.

(** The body of [for idx, song_link in enumerate(...)], lines 87-98. *)
Definition fetch_link (songs : dict Song) (idx : nat) (link : song_link)
    : dict Song :=
  match title_elem link with
  | Some title =>
      let artist := match artist_elem link with Some a => a | None => "" end in
      let href := match href_attr link with Some h => h | None => "" end in
      let key := song_key title artist idx in
      dict_set songs key (mkSong title artist href)
  | None => songs
  end.

Fixpoint fetch_links (songs : dict Song) (idx : nat)
    (links : list song_link) : dict Song :=
  match links with
  | [] => songs
  | link :: links' => fetch_links (fetch_link songs idx link) (S idx) links'
  end.

(** [fetch_songs]; [page] is [None] when the GET raised
    [RequestException] (a bad status included), [Some None] when the
    page has no song list, and otherwise the [<a>] elements of the
    list. *)
Definition fetch_songs (self : UkebookClient)
    (page : option (option (list song_link))) : raised + dict Song :=
  if negb (_logged_in self) then inl RuntimeError
  else
    match page with
    | None => inr []
    | Some None => inr []
    | Some (Some links) => inr (fetch_links [] 0 links)
    end.

(** ** __main__.py: around the loop *)

Section Session.

Variable ratio : string -> string -> Z.
Variable urljoin : string -> string -> string.
Variable html_ok : string -> bool.
Variable host_url : string.
Variable break_url : option string.
Variable available_songs : dict Song.
Variable input_songs : list Entry.

(** Lines 100-109: the pages opened before the loop. *)
Definition open_initial : M state unit :=
  yes <- call confirm_action ;;
  if yes then
    (if truthy break_url
     then modify (webbrowser_open (urljoin host_url (str break_url)))
     else ret tt) ;;
    modify (webbrowser_open (urljoin host_url "/songbook/")) ;;
    input_or_cancel
  else ret tt.

(** Lines 182-189: the break page after the last item. *)
Definition final_break : M state unit :=
  if truthy break_url then
    input_or_cancel ;;
    modify (webbrowser_open (urljoin host_url (str break_url)))
  else ret tt.

(** Lines 100-189 of [main]: the pages before the loop, the loop, the
    break page after it. *)
Definition process (fuel : nat) (st : state) (keys : list key)
    : option (result state unit) :=
  match open_initial st keys with
  | Ret _ st1 keys1 =>
      match main_loop ratio urljoin html_ok host_url break_url
                      available_songs input_songs fuel st1 keys1 with
      | Some (Ret _ st2 keys2) => Some (final_break st2 keys2)
      | other => other
      end
  | r => Some r
  end.

End Session.

(** ** Vocabulary of the statements about the rest of the code *)

(** A field as [read_input_list] stores it: nothing to strip and no
    tab. *)
Definition clean_field (f : string) : Prop :=
  str_strip f = f /\ ~ In tab (list_ascii_of_string f).

(** The line of a setlist file for a song: the four fields with a tab
    between them. *)
Definition format_line (s : InputSong) : string :=
  (title s ++ String tab (artist s ++ String tab
     (gema_nr s ++ String tab (leader s))))%string.

(** A text without a line feed and without a carriage return. *)
Definition no_line_break (s : string) : Prop :=
  ~ In line_feed (list_ascii_of_string s)
  /\ ~ In carriage_return (list_ascii_of_string s).

(** A song that a line of the setlist file can hold: clean fields, a
    title and a leader that are not empty, a title other than the break
    marker, and no line break in the line. *)
Definition writable (s : InputSong) : Prop :=
  clean_field (title s) /\ clean_field (artist s)
  /\ clean_field (gema_nr s) /\ clean_field (leader s)
  /\ title s <> ""%string /\ title s <> "Break"%string
  /\ leader s <> ""%string
  /\ no_line_break (format_line s).

(** The setlist file written for a list of songs: a line for each,
    ended by a line feed. *)
Fixpoint written (songs : list InputSong) : string :=
  match songs with
  | [] => ""%string
  | s :: songs' =>
      (format_line s ++ String line_feed (written songs'))%string
  end.

(** A text of whole lines: empty, or ended by a line feed. *)
Definition whole_lines (text : string) : Prop :=
  text = ""%string
  \/ exists lines, text = (lines ++ String line_feed "")%string.

(** Whether the last character of a text is a carriage return; [b]
    for the empty text. *)
Fixpoint cr_pending (b : bool) (s : list ascii) : bool :=
  match s with
  | [] => b
  | c :: s' => cr_pending (Ascii.eqb c carriage_return) s'
  end.

(** A string of white space only. *)
Definition blank (s : string) : Prop :=
  Forall (fun c => isspace c = true) (list_ascii_of_string s).

(** The number of tabs in a string. *)
Definition tabs (s : string) : nat :=
  count_occ ascii_dec (list_ascii_of_string s) tab.

(** The first tab-separated field of a stripped line, stripped. *)
Definition first_field (line : string) : string :=
  hd ""%string (map str_strip (str_split_tab (str_strip line))).

(** The items [fetch_songs] is to store for the links from position
    [idx] on, one for each link with a title element. *)
Fixpoint link_items (idx : nat) (links : list song_link)
    : list (string * Song) :=
  match links with
  | [] => []
  | link :: links' =>
      match title_elem link with
      | Some title =>
          let artist :=
            match artist_elem link with Some a => a | None => ""%string end in
          let href :=
            match href_attr link with Some h => h | None => ""%string end in
          [(song_key title artist idx, mkSong title artist href)]
      | None => []
      end ++ link_items (S idx) links'
  end.

(** A key that does not end a dialog. *)
Definition moves_only (k : key) : Prop :=
  k <> KeyEnter /\ k <> KeyCtrlC.

(** Downs minus ups. *)
Fixpoint net_moves (keys : list key) : Z :=
  match keys with
  | [] => 0
  | KeyDown :: keys' => net_moves keys' + 1
  | KeyUp :: keys' => net_moves keys' - 1
  | _ :: keys' => net_moves keys'
  end.

(** [HTML] accepts the text of [select_match] wherever the highlight
    is: on none of the choices, as it is at first when there is no
    match, or on one of them. *)
Definition renders (html_ok : string -> bool) (song_title : string)
    (matches : list Match) : Prop :=
  forall idx, -1 <= idx < len matches + 2 ->
  html_ok (formatted_text song_title (select_choices matches) idx) = true.

(** What [select_match] answers when Enter finds the highlight on the
    choice of index [idx]. *)
Definition answer_at (matches : list Match) (idx : Z) : option Match * bool :=
  match nth_error matches (Z.to_nat idx) with
  | Some m =>
      if String.eqb (display_name m) "Go back" then (None, true)
      else (Some m, false)
  | None => if idx =? len matches then (None, false) else (None, true)
  end.

(** The address opened for a record of the outcome list. *)
Definition record_url (urljoin : string -> string -> string)
    (host_url : string) (break_url : option string)
    (r : string * option Match) : string :=
  match snd r with
  | Some m => urljoin host_url (href (song m))
  | None => urljoin host_url (str break_url)
  end.

(** A record the loop can have appended: a break, when a destination
    is configured, or a match found for a song of the setlist. *)
Definition record_ok (ratio : string -> string -> Z)
    (break_url : option string) (available_songs : dict Song)
    (input_songs : list Entry) (r : string * option Match) : Prop :=
  (r = ("break", None) /\ truthy break_url = true)
  \/ exists entry m,
       In (EntrySong entry) input_songs
       /\ In m (find_matches ratio entry available_songs default_threshold)
       /\ r = ("song", Some m).

(** The sequence of answers a client gets to its logins. *)
Fixpoint logins (self : UkebookClient) (responses : list (option Z))
    : UkebookClient :=
  match responses with
  | [] => self
  | response :: responses' => logins (fst (login self response)) responses'
  end.

(** A status code that [login] takes for success. *)
Definition redirect (response : option Z) : bool :=
  match response with
  | Some code => (code =? 301) || (code =? 302)
  | None => false
  end.

(** Inputs to run the definitions above on. *)
Module Fixtures.

Definition yesterday : InputSong :=
  mkInputSong "Yesterday" "Beatles" "123" "Alice".

(** The lines of a setlist file: a song, an empty line, a break with
    a remark, a line with three fields, a song with a fifth field. *)
Definition setlist_file : list string :=
  [String.append (format_line yesterday) (String line_feed "");
   String line_feed "";
   String.append "Break" (String tab (String.append "10 min"
                                        (String line_feed "")));
   String.append "Help" (String tab (String.append "Beatles"
      (String tab (String.append "77" (String line_feed "")))));
   String.append " Hey Jude " (String tab (String.append "Beatles"
      (String tab (String.append "9" (String tab (String.append "Bob"
         (String tab (String.append "encore" (String line_feed "")))))))))].

(** The text of that file. *)
Definition setlist_text : string := String.concat "" setlist_file.

Definition hey_jude : InputSong := mkInputSong "Hey Jude" "Beatles" "9" "Bob".

(** Links as the song list has them: two songs of the same title and
    artist, an element without a title, a song without an artist. *)
Definition links : list song_link :=
  [mkLink (Some "Yesterday") (Some "Beatles") (Some "/s/1");
   mkLink (Some "Yesterday") (Some "Beatles") (Some "/s/2");
   mkLink None (Some "Nobody") (Some "/s/3");
   mkLink (Some "Greensleeves") None None].

(** A song that the file format cannot hold, and a line with three
    fields. *)
Definition break_song : InputSong := mkInputSong "Break" "Band" "1" "Al".
Definition short_line : string :=
  String.append "Help" (String tab (String.append "Beatles"
    (String tab (String.append "77" (String line_feed ""))))).

Definition break_page_url : option string := Some "/break".

Definition two_matches : list Match :=
  [mkMatch "X" (mkSong "X" "" "/x") 60; mkMatch "Y" (mkSong "Y" "" "/y") 90].

(** A match whose label has an ampersand. *)
Definition ampersand_match : list Match :=
  [mkMatch "R&B - Vv (0)" (mkSong "R&B" "Vv" "/songbook/r") 80].

End Fixtures.

(** ** Vocabulary of the statements *)

(** Order of two elements by their sort key. *)
Definition key_le {A : Type} (key : A -> Z) (x y : A) : Prop :=
  key x <= key y.

(** The [Match] built for a catalog item. *)
Definition as_match (ratio : string -> string -> Z) (search : string)
    (item : string * Song) : Match :=
  mkMatch (fst item) (snd item) (ratio search (fst item)).

(** The catalog items whose label scores [threshold] or more. *)
Definition scores_at_least (ratio : string -> string -> Z) (search : string)
    (threshold : Z) (item : string * Song) : bool :=
  ratio search (fst item) >=? threshold.

(** The state a result carries. *)
Definition state_of {S A : Type} (r : result S A) : S :=
  match r with
  | Ret _ s _ => s
  | Raise _ s => s
  | SysExit _ s => s
  | Waiting s => s
  end.

(** What a dialog can do: return an answer that satisfies [ok] with
    fewer keys left, leave the process on Ctrl-C, or wait for a key. *)
Definition dialog_spec {A : Type} (keys : list key) (ok : A -> Prop)
    (r : result unit A) : Prop :=
  match r with
  | Ret a _ rest =>
      ok a /\ (List.length rest < List.length keys)%nat /\ incl rest keys
  | Raise _ _ => False
  | SysExit code _ => code = 0 /\ In KeyCtrlC keys
  | Waiting _ => True
  end.

(** * Properties *)

(** ** Sorting *)

Section SortedFacts.
Variable A : Type.
Variable key : A -> Z.

Lemma insert_by_In (x y : A) (l : list A) :
  In y (insert_by key x l) <-> y = x \/ In y l.
Proof.
  induction l as [|z l IH]; simpl.
  - intuition congruence.
  - destruct (key x <=? key z); simpl; [|rewrite IH]; intuition congruence.
Qed.

Lemma sorted_In (y : A) (l : list A) : In y (sorted key l) <-> In y l.
Proof.
  induction l as [|x l IH]; simpl; [tauto|].
  rewrite insert_by_In, IH. intuition congruence.
Qed.

Lemma insert_by_length (x : A) (l : list A) :
  List.length (insert_by key x l) = S (List.length l).
Proof.
  induction l as [|z l IH]; simpl; [reflexivity|].
  destruct (key x <=? key z); simpl; congruence.
Qed.

Lemma sorted_length (l : list A) :
  List.length (sorted key l) = List.length l.
Proof.
  induction l as [|x l IH]; simpl; [reflexivity|].
  rewrite insert_by_length. congruence.
Qed.

Lemma insert_by_Forall (P : A -> Prop) (x : A) (l : list A) :
  P x -> Forall P l -> Forall P (insert_by key x l).
Proof.
  intros Hx Hl. apply Forall_forall. intros y Hy.
  apply (proj1 (insert_by_In _ _ _)) in Hy.
  destruct Hy as [->|Hy]; [assumption|].
  rewrite Forall_forall in Hl. auto.
Qed.

Lemma insert_by_sorted (x : A) (l : list A) :
  StronglySorted (key_le key) l ->
  StronglySorted (key_le key) (insert_by key x l).
Proof.
  induction 1 as [|z l Hs IH Hz]; simpl.
  - constructor; constructor.
  - destruct (Z.leb_spec (key x) (key z)) as [Hle|Hgt].
    + constructor; [constructor; assumption|].
      constructor; [exact Hle|].
      eapply Forall_impl; [|exact Hz].
      unfold key_le. intros; lia.
    + constructor; [assumption|].
      apply insert_by_Forall; [unfold key_le; lia | assumption].
Qed.

Lemma sorted_StronglySorted (l : list A) :
  StronglySorted (key_le key) (sorted key l).
Proof.
  induction l as [|x l IH]; simpl; [constructor|].
  now apply insert_by_sorted.
Qed.

(** Stability: the elements with a given key keep their order. *)
Lemma insert_by_stable (s : Z) (x : A) (l : list A) :
  filter (fun y => key y =? s) (insert_by key x l)
  = filter (fun y => key y =? s) (x :: l).
Proof.
  induction l as [|z l IH]; [reflexivity|].
  simpl insert_by. destruct (Z.leb_spec (key x) (key z)) as [Hle|Hgt].
  - reflexivity.
  - simpl. simpl in IH. rewrite IH.
    destruct (Z.eqb_spec (key x) s), (Z.eqb_spec (key z) s);
      try reflexivity; lia.
Qed.

Lemma sorted_stable (s : Z) (l : list A) :
  filter (fun y => key y =? s) (sorted key l)
  = filter (fun y => key y =? s) l.
Proof.
  induction l as [|x l IH]; [reflexivity|].
  simpl sorted. rewrite insert_by_stable. simpl. now rewrite IH.
Qed.

Lemma insert_by_map_NoDup (B : Type) (f : A -> B) (x : A) (l : list A) :
  NoDup (map f (x :: l)) -> NoDup (map f (insert_by key x l)).
Proof.
  induction l as [|z l IH]; simpl; [auto|].
  destruct (key x <=? key z); simpl; [auto|].
  intros H. inversion H as [|? ? Hx Hrest]; subst.
  inversion Hrest as [|? ? Hz Hl]; subst.
  constructor.
  - intros Hin. apply in_map_iff in Hin. destruct Hin as [y [Hy Hin]].
    apply (proj1 (insert_by_In _ _ _)) in Hin. destruct Hin as [->|Hin].
    + apply Hx. left. congruence.
    + apply Hz. rewrite <- Hy. now apply in_map.
  - apply IH. simpl. constructor; [|assumption].
    intros Hin. apply Hx. now right.
Qed.

Lemma sorted_map_NoDup (B : Type) (f : A -> B) (l : list A) :
  NoDup (map f l) -> NoDup (map f (sorted key l)).
Proof.
  induction l as [|x l IH]; simpl; [auto|].
  intros H. apply insert_by_map_NoDup. simpl.
  inversion H as [|? ? Hx Hl]; subst. constructor; [|auto].
  intros Hin. apply Hx. apply in_map_iff in Hin.
  destruct Hin as [y [Hy Hin]].
  apply (proj1 (sorted_In _ _)) in Hin.
  rewrite <- Hy. now apply in_map.
Qed.
End SortedFacts.

(** ** matcher.py *)

Section MatcherFacts.
Variable ratio : string -> string -> Z.

Lemma fold_consider (search : string) (threshold : Z)
    (d : dict Song) (acc : list Match) :
  fold_left (consider ratio search threshold) d acc
  = acc ++ map (as_match ratio search)
               (filter (scores_at_least ratio search threshold) d).
Proof.
  revert acc. induction d as [|[k v] d IH]; intros acc; simpl.
  - now rewrite app_nil_r.
  - rewrite IH. unfold scores_at_least at 2. simpl.
    destruct (ratio search k >=? threshold); simpl.
    + now rewrite <- app_assoc.
    + reflexivity.
Qed.

(** The loop and the sort of [find_matches] as one expression. *)
Lemma find_matches_eq (input_song : InputSong) (d : dict Song)
    (threshold : Z) :
  find_matches ratio input_song d threshold
  = sorted similarity
      (map (as_match ratio (search_string input_song))
           (filter (scores_at_least ratio (search_string input_song)
                                    threshold) d)).
Proof. unfold find_matches. now rewrite fold_consider. Qed.

Lemma find_matches_In (input_song : InputSong) (d : dict Song)
    (threshold : Z) (m : Match) :
  In m (find_matches ratio input_song d threshold) <->
  exists item, In item d
    /\ threshold <= ratio (search_string input_song) (fst item)
    /\ m = as_match ratio (search_string input_song) item.
Proof.
  rewrite find_matches_eq, sorted_In, in_map_iff. split.
  - intros [item [Hm Hin]]. apply filter_In in Hin.
    destruct Hin as [Hin Hk]. unfold scores_at_least in Hk.
    apply Z.geb_le in Hk. eauto.
  - intros [item [Hin [Hk Hm]]]. exists item. split; [auto|].
    apply filter_In. split; [assumption|].
    unfold scores_at_least. now apply Z.geb_le.
Qed.

Lemma dict_get_In (V : Type) (d : dict V) (k : string) (v : V) :
  dict_wf d -> In (k, v) d -> dict_get d k = Some v.
Proof.
  unfold dict_wf. induction d as [|[k' v'] d IH]; simpl; [tauto|].
  intros Hwf [Heq|Hin].
  - inversion Heq; subst. now rewrite String.eqb_refl.
  - inversion Hwf as [|? ? Hk Hd]; subst.
    destruct (String.eqb_spec k' k) as [->|_]; [|auto].
    exfalso. apply Hk. change k with (fst (k, v)). now apply in_map.
Qed.

Lemma NoDup_map_filter (X Y : Type) (f : X -> Y) (p : X -> bool)
    (l : list X) :
  NoDup (map f l) -> NoDup (map f (filter p l)).
Proof.
  induction l as [|x l IH]; simpl; [auto|].
  intros H. inversion H as [|? ? Hx Hl]; subst.
  destruct (p x); simpl; [|auto].
  constructor; [|auto].
  intros Hin. apply Hx. apply in_map_iff in Hin.
  destruct Hin as [y [Hy Hin]]. apply filter_In in Hin.
  rewrite <- Hy. apply in_map. tauto.
Qed.

(** C3: every match [find_matches] returns has a similarity of at
    least the threshold, and no catalog label that scores below the
    threshold against the comparison string is the label of a returned
    match. *)
Theorem find_matches_threshold (input_song : InputSong)
    (available_songs : dict Song) (threshold : Z) :
  (forall m, In m (find_matches ratio input_song available_songs threshold)
     -> similarity m >= threshold)
  /\ (forall label entry, In (label, entry) available_songs ->
        ratio (search_string input_song) label < threshold ->
        forall m,
          In m (find_matches ratio input_song available_songs threshold)
          -> display_name m <> label).
Proof.
  split.
  - intros m Hm. apply find_matches_In in Hm.
    destruct Hm as [item [_ [Hk ->]]]. simpl. lia.
  - intros label entry _ Hlow m Hm Heq.
    apply find_matches_In in Hm.
    destruct Hm as [item [_ [Hk ->]]]. simpl in Heq. subst. lia.
Qed.

(** C4: the list [find_matches] returns is in non-decreasing order of
    similarity, and for every score the returned matches with that
    score are the catalog items with that score (at or above the
    threshold), in the order in which the catalog iterates. *)
Theorem find_matches_ascending_stable (input_song : InputSong)
    (available_songs : dict Song) (threshold : Z) :
  StronglySorted (key_le similarity)
    (find_matches ratio input_song available_songs threshold)
  /\ forall score,
       filter (fun m => similarity m =? score)
         (find_matches ratio input_song available_songs threshold)
       = map (as_match ratio (search_string input_song))
           (filter
              (fun item =>
                 scores_at_least ratio (search_string input_song)
                                 threshold item
                 && (ratio (search_string input_song) (fst item)
                     =? score))
              available_songs).
Proof.
  rewrite find_matches_eq. split.
  - apply sorted_StronglySorted.
  - intros score. rewrite sorted_stable.
    induction available_songs as [|item d IH]; [reflexivity|].
    simpl. destruct (scores_at_least _ _ _ item); simpl.
    + destruct (ratio _ (fst item) =? score); simpl; now rewrite IH.
    + exact IH.
Qed.

(** C10: every returned match is drawn from the catalog: its label is
    a key of the catalog and its song is the value stored under that
    key; no key is the label of two returned matches, and the list is
    no longer than the catalog. *)
Theorem find_matches_from_catalog (input_song : InputSong)
    (available_songs : dict Song) (threshold : Z) :
  dict_wf available_songs ->
  (forall m, In m (find_matches ratio input_song available_songs threshold)
     -> In (display_name m, song m) available_songs
        /\ dict_get available_songs (display_name m) = Some (song m))
  /\ NoDup (map display_name
              (find_matches ratio input_song available_songs threshold))
  /\ (List.length (find_matches ratio input_song available_songs threshold)
      <= List.length available_songs)%nat.
Proof.
  intros Hwf. split; [|split].
  - intros m Hm. apply find_matches_In in Hm.
    destruct Hm as [[k v] [Hin [_ ->]]]. simpl.
    split; [assumption | now apply dict_get_In].
  - rewrite find_matches_eq. apply sorted_map_NoDup.
    rewrite map_map. simpl. now apply NoDup_map_filter.
  - rewrite find_matches_eq, sorted_length, length_map.
    apply filter_length_le.
Qed.

End MatcherFacts.

(** ** The scorer *)

Module FuzzFacts.
Import Fuzz.

Lemma edit_distance_nil_r (xs : list ascii) :
  edit_distance xs [] = List.length xs.
Proof. destruct xs; reflexivity. Qed.

Lemma edit_distance_cons (x y : ascii) (xs ys : list ascii) :
  edit_distance (x :: xs) (y :: ys)
  = if Ascii.eqb x y then edit_distance xs ys
    else S (Nat.min (edit_distance xs (y :: ys))
                    (edit_distance (x :: xs) ys)).
Proof. reflexivity. Qed.

Lemma edit_distance_sym (xs ys : list ascii) :
  edit_distance xs ys = edit_distance ys xs.
Proof.
  revert ys. induction xs as [|x xs IHx]; intros ys.
  - now rewrite edit_distance_nil_r.
  - induction ys as [|y ys IHy].
    + reflexivity.
    + rewrite !edit_distance_cons, (Ascii.eqb_sym y x).
      destruct (Ascii.eqb x y).
      * apply IHx.
      * rewrite IHy, (IHx (y :: ys)), Nat.min_comm. reflexivity.
Qed.

Lemma edit_distance_le (xs ys : list ascii) :
  (edit_distance xs ys <= List.length xs + List.length ys)%nat.
Proof.
  revert ys. induction xs as [|x xs IHx]; intros ys.
  - simpl. lia.
  - induction ys as [|y ys IHy].
    + simpl. lia.
    + rewrite edit_distance_cons. destruct (Ascii.eqb x y).
      * specialize (IHx ys). simpl. lia.
      * specialize (IHx (y :: ys)). simpl in *. lia.
Qed.

(** The distance is zero for identical strings only: a difference in
    case or in white space is a difference. *)
Lemma edit_distance_zero (xs ys : list ascii) :
  edit_distance xs ys = 0%nat <-> xs = ys.
Proof.
  revert ys. induction xs as [|x xs IHx]; intros ys.
  - simpl. destruct ys; simpl; split; congruence.
  - destruct ys as [|y ys].
    + simpl. split; congruence.
    + rewrite edit_distance_cons.
      destruct (Ascii.eqb_spec x y) as [->|Hne].
      * rewrite IHx. split; congruence.
      * split; congruence.
Qed.

Lemma round_div_near (num den : Z) :
  0 < den -> 2 * Z.abs (round_div num den * den - num) <= den.
Proof.
  intros Hden. unfold round_div.
  pose proof (Z.div_mod num den ltac:(lia)) as Hdm.
  pose proof (Z.mod_pos_bound num den Hden) as Hr.
  destruct (Z.ltb_spec (2 * (num mod den)) den);
    [|destruct (Z.ltb_spec den (2 * (num mod den)));
      [|destruct (Z.even (num / den))]]; lia.
Qed.

Lemma round_div_exact (q den : Z) :
  0 < den -> round_div (q * den) den = q.
Proof.
  intros Hden. unfold round_div.
  rewrite Z.mod_mul, Z.div_mul by lia.
  destruct (Z.ltb_spec (2 * 0) den); [reflexivity | lia].
Qed.

Lemma round_div_range (num den : Z) :
  0 < den -> 0 <= num <= 100 * den -> 0 <= round_div num den <= 100.
Proof.
  intros Hden Hnum. pose proof (round_div_near num Hden) as Hnear.
  nia.
Qed.

Lemma ratio_range (s1 s2 : string) : 0 <= ratio s1 s2 <= 100.
Proof.
  unfold ratio.
  pose proof (edit_distance_le (list_ascii_of_string s1)
                               (list_ascii_of_string s2)) as Hd.
  destruct (Z.eqb_spec
              (Z.of_nat (List.length (list_ascii_of_string s1)
                         + List.length (list_ascii_of_string s2))) 0);
    [lia|].
  apply round_div_range; lia.
Qed.

Lemma ratio_sym (s1 s2 : string) : ratio s1 s2 = ratio s2 s1.
Proof.
  unfold ratio. rewrite edit_distance_sym, Nat.add_comm. reflexivity.
Qed.

Lemma list_ascii_of_string_inj (s1 s2 : string) :
  list_ascii_of_string s1 = list_ascii_of_string s2 -> s1 = s2.
Proof.
  intros H. rewrite <- (string_of_list_ascii_of_string s1),
                    <- (string_of_list_ascii_of_string s2).
  now rewrite H.
Qed.

End FuzzFacts.

(** C9: the similarity of a returned match, and the score each catalog
    label is kept or dropped on, is the scorer applied to the
    comparison string ["{title} - {artist}"] and the label as they are;
    the scorer is an integer between 0 and 100, the nearest integer to
    [100 * (1 - distance / total)] for the edit distance of the two
    strings normalised by their total length, it is symmetric, and only
    identical strings are at distance zero (nothing is folded in case or
    white space). *)
Theorem similarity_is_edit_ratio (input_song : InputSong)
    (available_songs : dict Song) (threshold : Z) :
  (forall m,
     In m (find_matches Fuzz.ratio input_song available_songs threshold) ->
     similarity m
     = Fuzz.ratio (title input_song ++ " - " ++ artist input_song)%string
                  (display_name m)
     /\ 0 <= similarity m <= 100)
  /\ (forall label entry, In (label, entry) available_songs ->
        (In (mkMatch label entry
               (Fuzz.ratio
                  (title input_song ++ " - " ++ artist input_song)%string
                  label))
            (find_matches Fuzz.ratio input_song available_songs threshold)
         <-> threshold
             <= Fuzz.ratio
                  (title input_song ++ " - " ++ artist input_song)%string
                  label))
  /\ (forall s1 s2 : string,
        let xs := list_ascii_of_string s1 in
        let ys := list_ascii_of_string s2 in
        let total := Z.of_nat (List.length xs + List.length ys) in
        let distance := Z.of_nat (Fuzz.edit_distance xs ys) in
        0 <= Fuzz.ratio s1 s2 <= 100
        /\ (0 < total ->
            2 * Z.abs (Fuzz.ratio s1 s2 * total - 100 * (total - distance))
            <= total)
        /\ Fuzz.ratio s1 s2 = Fuzz.ratio s2 s1
        /\ (distance = 0 <-> s1 = s2)
        /\ Fuzz.ratio s1 s1 = 100).
Proof.
  split; [|split].
  - intros m Hm. apply find_matches_In in Hm.
    destruct Hm as [item [_ [_ ->]]]. simpl. split.
    + reflexivity.
    + apply FuzzFacts.ratio_range.
  - intros label entry Hin. rewrite find_matches_In. split.
    + intros [item [_ [Hk Hm]]]. unfold as_match in Hm.
      inversion Hm; subst. exact Hk.
    + intros Hk. exists (label, entry). auto.
  - intros s1 s2 xs ys total distance. repeat split.
    + apply FuzzFacts.ratio_range.
    + apply FuzzFacts.ratio_range.
    + intros Htotal. unfold Fuzz.ratio. fold xs ys total distance.
      destruct (Z.eqb_spec total 0); [lia|].
      now apply FuzzFacts.round_div_near.
    + apply FuzzFacts.ratio_sym.
    + intros Hd. apply FuzzFacts.list_ascii_of_string_inj.
      apply FuzzFacts.edit_distance_zero. unfold distance in Hd.
      fold xs ys. lia.
    + intros Heq. unfold distance, xs, ys. rewrite Heq.
      rewrite (proj2 (FuzzFacts.edit_distance_zero _ _) eq_refl).
      reflexivity.
    + unfold Fuzz.ratio.
      rewrite (proj2 (FuzzFacts.edit_distance_zero _ _) eq_refl).
      destruct (Z.eqb_spec
                  (Z.of_nat (List.length (list_ascii_of_string s1)
                             + List.length (list_ascii_of_string s1))) 0)
        as [|Hne]; [reflexivity|].
      rewrite Z.sub_0_r. apply FuzzFacts.round_div_exact. lia.
Qed.

(** ** The terminal and ui.py *)

Lemma py_index_in_range (A : Type) (l : list A) (j : Z) :
  - len l <= j < len l -> exists a, py_index l j = Some a /\ In a l.
Proof.
  unfold py_index, len. intros Hj.
  destruct (Z.ltb_spec j 0) as [Hneg|Hpos].
  - destruct (Z.ltb_spec (Z.of_nat (List.length l) + j) 0); [lia|].
    destruct (nth_error l (Z.to_nat (Z.of_nat (List.length l) + j)))
      as [a|] eqn:Hnth.
    + exists a. split; [reflexivity|]. eapply nth_error_In; eauto.
    + apply nth_error_None in Hnth. lia.
  - destruct (nth_error l (Z.to_nat j)) as [a|] eqn:Hnth.
    + exists a. split; [reflexivity|]. eapply nth_error_In; eauto.
    + apply nth_error_None in Hnth. lia.
Qed.

Lemma py_index_Some_In (A : Type) (l : list A) (j : Z) (a : A) :
  py_index l j = Some a -> In a l.
Proof.
  unfold py_index. intros H.
  destruct (j <? 0); [destruct (len l + j <? 0); [discriminate|]|];
    eapply nth_error_In; eauto.
Qed.

(** What reading a line can do: return with fewer keys left, raise on
    Ctrl-C and on Ctrl-D, or wait. *)
Lemma input_spec (keys : list key) :
  match input tt keys with
  | Ret _ _ rest =>
      (List.length rest < List.length keys)%nat /\ incl rest keys
  | Raise e _ =>
      (e = KeyboardInterrupt /\ In KeyCtrlC keys)
      \/ (e = EOFError /\ In KeyCtrlD keys)
  | SysExit _ _ => False
  | Waiting _ => True
  end.
Proof.
  induction keys as [|k keys IH]; simpl; [exact I|].
  destruct k; simpl; auto using incl_tl, incl_refl;
    destruct (input tt keys); simpl in *; try tauto;
    intuition auto using incl_tl.
Qed.

(** What a dialog can do: return an index that [choices] has, with
    fewer keys left, leave the process on Ctrl-C, or wait. *)
Lemma application_run_spec (n : Z) (keys : list key) :
  0 < n -> forall selected_index, - n <= selected_index < n ->
  match application_run n selected_index tt keys with
  | Ret j _ rest =>
      - n <= j < n /\ (List.length rest < List.length keys)%nat
      /\ incl rest keys
  | Raise _ _ => False
  | SysExit code _ => code = 0 /\ In KeyCtrlC keys
  | Waiting _ => True
  end.
Proof.
  intros Hn. induction keys as [|k keys IH]; intros idx Hidx; simpl;
    [exact I|].
  destruct k; simpl; auto using incl_tl, incl_refl.
  - pose proof (Z.mod_pos_bound (idx - 1) n Hn) as Hb.
    specialize (IH ((idx - 1) mod n) ltac:(lia)).
    destruct (application_run n ((idx - 1) mod n) tt keys);
      simpl in *; try tauto; intuition (auto using incl_tl; lia).
  - pose proof (Z.mod_pos_bound (idx + 1) n Hn) as Hb.
    specialize (IH ((idx + 1) mod n) ltac:(lia)).
    destruct (application_run n ((idx + 1) mod n) tt keys);
      simpl in *; try tauto; intuition (auto using incl_tl; lia).
  - specialize (IH idx Hidx).
    destruct (application_run n idx tt keys);
      simpl in *; try tauto; intuition (auto using incl_tl; lia).
  - specialize (IH idx Hidx).
    destruct (application_run n idx tt keys);
      simpl in *; try tauto; intuition (auto using incl_tl; lia).
Qed.

Lemma select_choices_length (matches : list Match) :
  len (select_choices matches) = len matches + 2.
Proof.
  unfold select_choices, len. rewrite length_app, length_map. simpl. lia.
Qed.

(** The dialog of [select_match] can also raise, and then it is the
    parser of [HTML] that does. *)
Lemma select_run_spec (html_ok : string -> bool) (song_title : string)
    (choices : list (option Match * string)) (keys : list key) :
  0 < len choices ->
  forall selected_index, - len choices <= selected_index < len choices ->
  match select_run html_ok song_title choices selected_index tt keys with
  | Ret j _ rest =>
      - len choices <= j < len choices
      /\ (List.length rest < List.length keys)%nat
      /\ incl rest keys
  | Raise e _ => e = ExpatError
  | SysExit code _ => code = 0 /\ In KeyCtrlC keys
  | Waiting _ => True
  end.
Proof.
  intros Hn. set (n := len choices) in *.
  induction keys as [|k keys IH]; intros idx Hidx; simpl;
    [exact I|].
  destruct k; simpl; auto using incl_tl, incl_refl.
  - pose proof (Z.mod_pos_bound (idx - 1) n Hn) as Hb.
    specialize (IH ((idx - 1) mod n) ltac:(lia)). fold n.
    destruct (html_ok _); [|reflexivity].
    destruct (select_run html_ok song_title choices ((idx - 1) mod n)
                         tt keys);
      simpl in *; try tauto; intuition (auto using incl_tl; lia).
  - pose proof (Z.mod_pos_bound (idx + 1) n Hn) as Hb.
    specialize (IH ((idx + 1) mod n) ltac:(lia)). fold n.
    destruct (html_ok _); [|reflexivity].
    destruct (select_run html_ok song_title choices ((idx + 1) mod n)
                         tt keys);
      simpl in *; try tauto; intuition (auto using incl_tl; lia).
  - specialize (IH idx Hidx).
    destruct (select_run html_ok song_title choices idx tt keys);
      simpl in *; try tauto; intuition (auto using incl_tl; lia).
  - specialize (IH idx Hidx).
    destruct (select_run html_ok song_title choices idx tt keys);
      simpl in *; try tauto; intuition (auto using incl_tl; lia).
Qed.

Lemma select_match_spec (html_ok : string -> bool) (matches : list Match)
    (song_title : string) (keys : list key) :
  match select_match html_ok matches song_title tt keys with
  | Ret answer _ rest =>
      match answer with
      | (Some m, go_back) => In m matches /\ go_back = false
      | (None, _) => True
      end
      /\ (List.length rest < List.length keys)%nat /\ incl rest keys
  | Raise e _ => e = ExpatError
  | SysExit code _ => code = 0 /\ In KeyCtrlC keys
  | Waiting _ => True
  end.
Proof.
  unfold select_match, get_formatted_text, bind, HTML.
  pose proof (select_choices_length matches) as Hlen.
  assert (Hpos : 0 <= len matches) by (unfold len; lia).
  destruct (html_ok _); [|reflexivity]. unfold ret at 1.
  pose proof (@select_run_spec html_ok song_title (select_choices matches)
                keys ltac:(lia) (len matches - 1) ltac:(lia)) as Hrun.
  destruct (select_run html_ok song_title (select_choices matches)
                       (len matches - 1) tt keys)
    as [j [] rest| | |]; try exact Hrun.
  destruct Hrun as [Hj [Hrest Hincl]].
  destruct (py_index_in_range (select_choices matches) Hj)
    as [choice [Hc Hin]].
  unfold subscript. rewrite Hc. unfold ret.
  destruct (String.eqb (snd choice) "Go back"); simpl; [tauto|].
  split; [|auto].
  destruct choice as [[m|] label]; simpl; [|exact I].
  split; [|reflexivity].
  unfold select_choices in Hin. apply in_app_or in Hin.
  destruct Hin as [Hin|Hin].
  - apply in_map_iff in Hin. destruct Hin as [m' [Heq Hm']].
    inversion Heq; subst. assumption.
  - simpl in Hin. destruct Hin as [H|[H|[]]]; discriminate.
Qed.

Lemma confirm_action_spec (keys : list key) :
  dialog_spec keys (fun _ => True) (confirm_action tt keys).
Proof.
  unfold confirm_action, bind.
  set (choices := [(true, "Yes"); (false, "No")]).
  pose proof (@application_run_spec (len choices)
                keys ltac:(reflexivity) 0 ltac:(unfold len; simpl; lia))
    as Hrun.
  destruct (application_run _ 0 tt keys) as [j [] rest| | |];
    try exact Hrun.
  destruct Hrun as [Hj [Hrest Hincl]].
  destruct (py_index_in_range choices Hj) as [choice [Hc _]].
  unfold subscript. rewrite Hc. simpl. tauto.
Qed.

Lemma confirm_break_spec (keys : list key) :
  dialog_spec keys (fun _ => True) (confirm_break tt keys).
Proof.
  unfold confirm_break, bind.
  set (choices := [(Some true, "Take a break");
                   (Some false, "Skip break"); (None, "Go back")]).
  pose proof (@application_run_spec (len choices)
                keys ltac:(reflexivity) 0 ltac:(unfold len; simpl; lia))
    as Hrun.
  destruct (application_run _ 0 tt keys) as [j [] rest| | |];
    try exact Hrun.
  destruct Hrun as [Hj [Hrest Hincl]].
  destruct (py_index_in_range choices Hj) as [choice [Hc _]].
  unfold subscript. rewrite Hc. unfold ret.
  destruct (String.eqb (snd choice) "Go back"); simpl; tauto.
Qed.

(** ** The processing loop *)

Section MainFacts.
Variable ratio : string -> string -> Z.
Variable urljoin : string -> string -> string.
Variable html_ok : string -> bool.
Variable host_url : string.
Variable break_url : option string.
Variable available_songs : dict Song.
Variable input_songs : list Entry.

Local Abbreviation body := (loop_body ratio urljoin html_ok host_url
                            break_url available_songs input_songs).
Local Abbreviation loop := (main_loop ratio urljoin html_ok host_url
                            break_url available_songs input_songs).
Local Abbreviation trace := (visited ratio urljoin html_ok host_url
                           break_url available_songs input_songs).
Local Abbreviation configuration := (reached ratio urljoin html_ok host_url
                                   break_url available_songs input_songs).
Local Abbreviation matches_for entry :=
  (find_matches ratio entry available_songs default_threshold).
Local Abbreviation heading entry :=
  ((title entry ++ " - " ++ artist entry)%string).

Lemma input_or_cancel_spec (st : state) (keys : list key) :
  match input_or_cancel st keys with
  | Ret _ st' rest =>
      st' = st /\ input tt keys = Ret tt tt rest
      /\ (List.length rest < List.length keys)%nat /\ incl rest keys
  | Raise e st' => e = EOFError /\ st' = st /\ In KeyCtrlD keys
  | SysExit code st' => code = 0 /\ st' = st /\ In KeyCtrlC keys
  | Waiting st' => st' = st
  end.
Proof.
  unfold input_or_cancel, try_except, call, sys_exit.
  pose proof (input_spec keys) as H.
  destruct (input tt keys) as [[] [] rest|e []|code []|[]]; simpl in *.
  - tauto.
  - destruct H as [[-> Hin]|[-> Hin]]; auto.
  - contradiction.
  - reflexivity.
Qed.

(** One iteration, case by case. *)
Lemma loop_body_spec (st : state) (keys : list key) :
  0 <= i st < len input_songs ->
  match body st keys with
  | Ret _ st' rest =>
      (i st' = i st + 1 \/ i st' = Z.max 0 (i st - 1))
      /\ ((selected_songs st' = selected_songs st
           /\ opened st' = opened st)
          \/ (i st' = i st + 1
              /\ exists r url,
                   selected_songs st' = selected_songs st ++ [r]
                   /\ opened st' = opened st ++ [url]))
      /\ ((List.length rest < List.length keys)%nat
          \/ (rest = keys /\ i st' = i st + 1))
      /\ incl rest keys
  | Raise e st' =>
      i st' = i st
      /\ ((e = EOFError /\ In KeyCtrlD keys)
          \/ (e = ExpatError /\ st' = st
              /\ exists entry,
                   py_index input_songs (i st) = Some (EntrySong entry)
                   /\ matches_for entry <> []))
  | SysExit code st' =>
      i st' = i st
      /\ ((code = 0 /\ In KeyCtrlC keys)
          \/ (code = 1 /\ st' = st
          /\ exists entry keys1 keys2,
               py_index input_songs (i st) = Some (EntrySong entry)
               /\ matches_for entry = []
               /\ input tt keys = Ret tt tt keys1
               /\ confirm_action tt keys1 = Ret false tt keys2))
  | Waiting st' => i st' = i st
  end.
Proof.
  intros Hi. unfold loop_body, bind, get.
  destruct (@py_index_in_range _ input_songs (i st) ltac:(lia))
    as [entry [Hentry _]].
  unfold subscript at 1. rewrite Hentry. unfold ret at 1.
  destruct entry as [entry|].
  - (* a song *)
    pose proof (input_or_cancel_spec st keys) as Hin.
    destruct (input_or_cancel st keys) as [[] st1 keys1|e st1|code st1|st1];
      [| | |now subst].
    2: { destruct Hin as [-> [-> Hin]]. auto. }
    2: { destruct Hin as [-> [-> Hin]]. auto. }
    destruct Hin as [-> [Hinput [Hlen1 Hincl1]]].
    destruct (matches_for entry) as [|m ms] eqn:Hmatches.
    + pose proof (confirm_action_spec keys1) as Hc.
      unfold call. destruct (confirm_action tt keys1)
        as [skip [] keys2| |code []|] eqn:Hconfirm; simpl in Hc;
        [|contradiction| |reflexivity].
      * destruct Hc as [_ [Hlen2 Hincl2]]. destruct skip; simpl.
        -- repeat split; auto; try (left; lia).
           eapply incl_tran; eauto.
        -- split; [reflexivity|]. right. repeat split.
           exists entry, keys1, keys2. auto.
      * destruct Hc as [-> Hc]. auto.
    + pose proof (select_match_spec html_ok (m :: ms) (heading entry) keys1)
        as Hs.
      unfold call.
      destruct (select_match html_ok (m :: ms) (heading entry) tt keys1)
        as [[selected go_back] [] keys2|e []|code []|]; simpl in Hs;
        [| | |reflexivity].
      * destruct Hs as [_ [Hlen2 Hincl2]].
        assert (incl keys2 keys) by (eapply incl_tran; eauto).
        unfold on_select. destruct go_back; simpl.
        -- repeat split; auto. left; lia.
        -- destruct selected as [chosen|]; simpl.
           ++ repeat split; auto; [|left; lia].
              right. split; [reflexivity|]. eauto.
           ++ repeat split; auto. left; lia.
      * subst e. split; [reflexivity|]. right. repeat split.
        exists entry. split; [reflexivity|]. rewrite Hmatches.
        discriminate.
      * destruct Hs as [-> Hs]. auto.
  - (* a break *)
    destruct (truthy break_url); simpl.
    + pose proof (confirm_break_spec keys) as Hb.
      unfold call. destruct (confirm_break tt keys)
        as [[take_break go_back] [] keys1| |code []|]; simpl in Hb;
        [|contradiction| |reflexivity].
      2: { destruct Hb as [-> Hb]. auto. }
      destruct Hb as [_ [Hlen1 Hincl1]].
      unfold on_break. destruct go_back; simpl.
      * repeat split; auto.
      * destruct take_break; simpl.
        -- unfold bind, modify.
           pose proof (input_or_cancel_spec
                         (webbrowser_open (urljoin host_url (str break_url))
                            (append_selected ("break", None) st)) keys1)
             as Hin.
           destruct (input_or_cancel _ keys1)
             as [[] st2 keys2|e st2|code st2|st2];
             [| | |now subst].
           ++ destruct Hin as [-> [_ [Hlen2 Hincl2]]]. simpl.
              repeat split; auto; [|left; lia|eapply incl_tran; eauto].
              right. split; [reflexivity|]. eauto.
           ++ destruct Hin as [-> [-> Hin]]. auto.
           ++ destruct Hin as [-> [-> Hin]]. auto.
        -- repeat split; auto.
    + repeat split; auto using incl_refl.
Qed.

(** An iteration that does not return leaves the outcome list as it
    was, or one record longer: the record of a break taken, appended
    before the pause that follows it. *)
Lemma loop_body_pending (st : state) (keys : list key) :
  0 <= i st < len input_songs ->
  match body st keys with
  | Ret _ _ _ => True
  | r =>
      selected_songs (state_of r) = selected_songs st
      \/ (selected_songs (state_of r)
          = selected_songs st ++ [("break", None)]
          /\ py_index input_songs (i st) = Some EntryBreak
          /\ truthy break_url = true)
  end.
Proof.
  intros Hi. unfold loop_body, bind, get.
  destruct (@py_index_in_range _ input_songs (i st) ltac:(lia))
    as [entry [Hentry _]].
  unfold subscript at 1. rewrite Hentry. unfold ret at 1.
  destruct entry as [entry|].
  - pose proof (input_or_cancel_spec st keys) as Hin.
    destruct (input_or_cancel st keys) as [[] st1 keys1|e st1|code st1|st1];
      simpl; try (left; intuition congruence).
    destruct Hin as [-> _].
    destruct (matches_for entry) as [|m ms].
    + unfold call. destruct (confirm_action tt keys1)
        as [skip [] keys2| | |]; simpl; auto.
      destruct skip; simpl; auto.
    + unfold call.
      destruct (select_match html_ok (m :: ms) _ tt keys1)
        as [[selected go_back] [] keys2| | |]; simpl; auto.
      unfold on_select. destruct go_back; simpl; [exact I|].
      destruct selected; exact I.
  - destruct (truthy break_url) eqn:Hurl; simpl; [|exact I].
    unfold call. destruct (confirm_break tt keys)
      as [[take_break go_back] [] keys1| | |]; simpl; auto.
    unfold on_break. destruct go_back; simpl; [exact I|].
    destruct take_break; simpl; [|exact I].
    unfold bind, modify.
    pose proof (input_or_cancel_spec
                  (webbrowser_open (urljoin host_url (str break_url))
                     (append_selected ("break", None) st)) keys1) as Hin.
    destruct (input_or_cancel _ keys1) as [[] st2 keys2|e st2|code st2|st2];
      simpl; [exact I| | |]; right;
      [destruct Hin as [_ [-> _]]|destruct Hin as [_ [-> _]]|subst st2];
      auto.
Qed.

(** What the handlers do with a go-back and with a skip. *)
Lemma on_select_go_back (selected : option Match) (st : state)
    (keys : list key) :
  on_select urljoin host_url (selected, true) st keys
  = Ret tt (set_i (Z.max 0 (i st - 1)) st) keys.
Proof. reflexivity. Qed.

Lemma on_select_skip (st : state) (keys : list key) :
  on_select urljoin host_url (None, false) st keys
  = Ret tt (set_i (i st + 1) st) keys.
Proof. reflexivity. Qed.

Lemma on_break_go_back (take_break : bool) (st : state)
    (keys : list key) :
  on_break urljoin host_url break_url (take_break, true) st keys
  = Ret tt (set_i (Z.max 0 (i st - 1)) st) keys.
Proof. reflexivity. Qed.

Lemma on_break_skip (st : state) (keys : list key) :
  on_break urljoin host_url break_url (false, false) st keys
  = Ret tt (set_i (i st + 1) st) keys.
Proof. reflexivity. Qed.

Lemma on_no_match_skip (st : state) (keys : list key) :
  on_no_match true st keys = Ret tt (set_i (i st + 1) st) keys.
Proof. reflexivity. Qed.

(** A break without a destination: the cursor moves on, nothing is
    read, recorded or opened. *)
Lemma loop_body_inert_break (st : state) (keys : list key) :
  truthy break_url = false ->
  py_index input_songs (i st) = Some EntryBreak ->
  body st keys = Ret tt (set_i (i st + 1) st) keys.
Proof.
  intros Hurl Hentry. unfold loop_body, bind, get, subscript.
  rewrite Hentry, Hurl. reflexivity.
Qed.

Lemma visited_head (n : nat) (st : state) (keys : list key) :
  exists others, trace n st keys = st :: others.
Proof. destruct n; simpl; eauto. Qed.

Lemma visited_step (n : nat) (st : state) (keys : list key) :
  trace (S n) st keys
  = st :: (if i st <? len input_songs
           then match body st keys with
                | Ret _ st' rest => trace n st' rest
                | _ => []
                end
           else []).
Proof. reflexivity. Qed.

Lemma advances_visited (n : nat) (st st1 : state) (rest : list key) :
  advances (st :: trace n st1 rest)
  = ((if (i st <? i st1)%Z then 1 else 0)
     + advances (trace n st1 rest))%nat.
Proof.
  destruct (visited_head n st1 rest) as [others ->]. reflexivity.
Qed.

Lemma last_default (A : Type) (l : list A) (x d d' : A) :
  last (x :: l) d = last (x :: l) d'.
Proof.
  revert x. induction l as [|y l IH]; intros x; [reflexivity|].
  exact (IH y).
Qed.

Lemma last_visited (n : nat) (st st1 : state) (rest : list key) :
  last (st :: trace n st1 rest) st = last (trace n st1 rest) st1.
Proof.
  destruct (visited_head n st1 rest) as [others ->].
  exact (last_default others st1 st st1).
Qed.

(** The cursor is never negative where the loop condition is
    evaluated. *)
Lemma visited_nonneg (n : nat) :
  forall st keys, 0 <= i st ->
  forall st', In st' (trace n st keys) -> 0 <= i st'.
Proof.
  induction n as [|n IH]; intros st keys Hst st' Hin; simpl in Hin.
  - destruct Hin as [<-|[]]. assumption.
  - destruct Hin as [<-|Hin]; [assumption|].
    destruct (Z.ltb_spec (i st) (len input_songs)) as [Hlt|]; [|easy].
    pose proof (@loop_body_spec st keys ltac:(lia)) as Hbody.
    destruct (body st keys) as [[] st1 rest| | |]; try easy.
    apply (IH st1 rest); [lia | assumption].
Qed.

(** Without a forward move the cursor cannot be above where it
    started. *)
Lemma visited_no_advance (n : nat) :
  forall st keys, 0 <= i st ->
  advances (trace n st keys) = 0%nat ->
  forall st', In st' (trace n st keys) -> i st' <= i st.
Proof.
  induction n as [|n IH]; intros st keys Hst Hadv st' Hin.
  - simpl in Hin. destruct Hin as [<-|[]]. lia.
  - rewrite visited_step in Hin, Hadv.
    destruct Hin as [<-|Hin]; [lia|].
    destruct (Z.ltb_spec (i st) (len input_songs)) as [Hlt|]; [|easy].
    pose proof (@loop_body_spec st keys ltac:(lia)) as Hbody.
    destruct (body st keys) as [[] st1 rest| | |]; try easy.
    rewrite advances_visited in Hadv.
    destruct (Z.ltb_spec (i st) (i st1)); [discriminate|].
    assert (0 <= i st1) by lia.
    specialize (IH st1 rest ltac:(assumption) Hadv st' Hin). lia.
Qed.

(** Records against forward moves, from any starting state. *)
Lemma visited_count (n : nat) :
  forall st keys, 0 <= i st ->
  (List.length (selected_songs (last (trace n st keys) st))
   <= List.length (selected_songs st) + advances (trace n st keys))%nat.
Proof.
  induction n as [|n IH]; intros st keys Hst.
  - simpl. lia.
  - rewrite visited_step.
    destruct (Z.ltb_spec (i st) (len input_songs)) as [Hlt|];
      [|simpl; lia].
    pose proof (@loop_body_spec st keys ltac:(lia)) as Hbody.
    destruct (body st keys) as [[] st1 rest| | |] eqn:Hb;
      try (simpl; lia).
    specialize (IH st1 rest ltac:(lia)).
    destruct Hbody as [Hi [Hrec _]].
    rewrite last_visited, advances_visited.
    destruct Hrec as [[Hsame _]|[Hnext [r [url [Happ _]]]]].
    + rewrite Hsame in IH. lia.
    + rewrite Happ, length_app in IH. simpl in IH.
      destruct (Z.ltb_spec (i st) (i st1)); lia.
Qed.

(** No iteration removes a record. *)
Lemma visited_prefix (n : nat) :
  forall st keys, 0 <= i st ->
  forall st', In st' (trace n st keys) ->
  exists more, selected_songs st' = selected_songs st ++ more.
Proof.
  induction n as [|n IH]; intros st keys Hst st' Hin; simpl in Hin.
  - destruct Hin as [<-|[]]. exists []. now rewrite app_nil_r.
  - destruct Hin as [<-|Hin]; [exists []; now rewrite app_nil_r|].
    destruct (Z.ltb_spec (i st) (len input_songs)) as [Hlt|]; [|easy].
    pose proof (@loop_body_spec st keys ltac:(lia)) as Hbody.
    destruct (body st keys) as [[] st1 rest| | |]; try easy.
    destruct (IH st1 rest ltac:(lia) st' Hin) as [more Hmore].
    destruct Hbody as [_ [[[Hsame _]|[_ [r [url [Happ _]]]]] _]].
    + exists more. congruence.
    + exists (r :: more). rewrite Hmore, Happ, <- app_assoc.
      reflexivity.
Qed.

Lemma reached_step (n : nat) (st st1 : state) (keys rest : list key) :
  i st < len input_songs ->
  body st keys = Ret tt st1 rest ->
  configuration (S n) st keys = configuration n st1 rest.
Proof.
  intros Hlt Hbody. simpl.
  destruct (Z.ltb_spec (i st) (len input_songs)); [|lia].
  now rewrite Hbody.
Qed.

(** The state in which the loop stops, waits, exits or raises has a
    cursor that is not negative.  An exception that leaves the loop is
    the [EOFError] of [input()] or the [ExpatError] of [HTML]; an exit
    is the one of Ctrl-C, or the one of a refusal at a song without
    matches, in the iteration that began where the loop exits. *)
Lemma main_loop_result (fuel : nat) :
  forall st keys r, 0 <= i st -> loop fuel st keys = Some r ->
  0 <= i (state_of r)
  /\ match r with
     | Raise e _ => e = EOFError \/ e = ExpatError
     | SysExit code st' =>
         (code = 0 /\ In KeyCtrlC keys)
         \/ (code = 1
             /\ exists n keys0 entry keys1 keys2,
                  configuration n st keys = Some (st', keys0)
                  /\ py_index input_songs (i st') = Some (EntrySong entry)
                  /\ matches_for entry = []
                  /\ input tt keys0 = Ret tt tt keys1
                  /\ confirm_action tt keys1 = Ret false tt keys2)
     | _ => True
     end.
Proof.
  induction fuel as [|fuel IH]; intros st keys r Hst Hrun;
    simpl in Hrun; [discriminate|].
  destruct (Z.ltb_spec (i st) (len input_songs)) as [Hlt|].
  - pose proof (@loop_body_spec st keys ltac:(lia)) as Hbody.
    destruct (body st keys) as [[] st1 rest|e st1|code st1|st1] eqn:Hb.
    + destruct Hbody as [Hi [_ [_ Hincl]]].
      destruct (IH st1 rest r ltac:(lia) Hrun) as [Hr Hkind].
      split; [assumption|].
      destruct r as [| |code st'|]; auto.
      destruct Hkind as [[Hc Hin]|[Hc [n [k0 [entry [k1 [k2 Hk]]]]]]];
        auto.
      right. split; [assumption|]. exists (S n), k0, entry, k1, k2.
      rewrite (@reached_step n st st1 keys rest Hlt Hb). assumption.
    + inversion Hrun; subst; simpl. destruct Hbody as [Hi Hkind].
      split; [lia|]. tauto.
    + inversion Hrun; subst; simpl. destruct Hbody as [Hi Hkind].
      split; [lia|].
      destruct Hkind as [Hkind|[Hc [-> [entry [k1 [k2 Hk]]]]]]; auto.
      right. split; [assumption|]. exists 0%nat, keys, entry, k1, k2.
      simpl. tauto.
    + inversion Hrun; subst; simpl. split; [lia | exact I].
  - inversion Hrun; subst; simpl. auto.
Qed.

(** Where the loop ends against where its condition was last
    evaluated: a loop that finishes ends in that state, and one that
    waits, exits or raises has the outcome list of that state, or one
    record more, the record of a break taken. *)
Lemma main_loop_last (fuel : nat) :
  forall st keys r, 0 <= i st -> loop fuel st keys = Some r ->
  match r with
  | Ret _ st' _ => st' = last (trace fuel st keys) st
  | _ =>
      selected_songs (state_of r)
      = selected_songs (last (trace fuel st keys) st)
      \/ selected_songs (state_of r)
         = selected_songs (last (trace fuel st keys) st)
           ++ [("break", None)]
  end.
Proof.
  induction fuel as [|fuel IH]; intros st keys r Hst Hrun;
    [discriminate|].
  rewrite visited_step. simpl in Hrun.
  destruct (Z.ltb_spec (i st) (len input_songs)) as [Hlt|].
  - pose proof (@loop_body_spec st keys ltac:(lia)) as Hbody.
    pose proof (@loop_body_pending st keys ltac:(lia)) as Hpending.
    destruct (body st keys) as [[] st1 rest|e st1|code st1|st1] eqn:Hb.
    + destruct Hbody as [Hi _].
      specialize (IH st1 rest r ltac:(lia) Hrun).
      rewrite last_visited. exact IH.
    + inversion Hrun; subst; simpl in *. tauto.
    + inversion Hrun; subst; simpl in *. tauto.
    + inversion Hrun; subst; simpl in *. tauto.
  - inversion Hrun; subst; reflexivity.
Qed.

(** Fuel that suffices: every iteration reads a key or moves the
    cursor forward without reading. *)
Lemma main_loop_total (fuel : nat) :
  forall st keys, 0 <= i st ->
  (List.length keys * S (List.length input_songs)
   + Z.to_nat (len input_songs - i st) < fuel)%nat ->
  exists r, loop fuel st keys = Some r.
Proof.
  induction fuel as [|fuel IH]; intros st keys Hst Hfuel; [lia|].
  simpl. destruct (Z.ltb_spec (i st) (len input_songs)) as [Hlt|];
    [|eauto].
  pose proof (@loop_body_spec st keys ltac:(lia)) as Hbody.
  destruct (body st keys) as [[] st1 rest| | |]; eauto.
  destruct Hbody as [Hi [_ [Hkeys _]]].
  apply IH; [lia|]. unfold len in *.
  destruct Hkeys as [Hless|[-> Hnext]]; [nia|lia].
Qed.

(** How an iteration reaches the three handlers. *)
Lemma input_or_cancel_enter (st : state) (keys keys1 : list key) :
  input tt keys = Ret tt tt keys1 ->
  input_or_cancel st keys = Ret tt st keys1.
Proof.
  intros H. unfold input_or_cancel, try_except, call. now rewrite H.
Qed.

Lemma loop_body_select (st : state) (entry : InputSong)
    (answer : option Match * bool) (keys keys1 keys2 : list key) :
  py_index input_songs (i st) = Some (EntrySong entry) ->
  matches_for entry <> [] ->
  input tt keys = Ret tt tt keys1 ->
  select_match html_ok (matches_for entry) (heading entry) tt keys1
  = Ret answer tt keys2 ->
  body st keys = on_select urljoin host_url answer st keys2.
Proof.
  intros Hentry Hsome Hinput Hselect.
  unfold loop_body, bind, get, subscript. rewrite Hentry. unfold ret at 1.
  rewrite input_or_cancel_enter with (keys1 := keys1) by assumption.
  destruct (matches_for entry) as [|m ms]; [congruence|].
  unfold call. now rewrite Hselect.
Qed.

Lemma loop_body_no_match (st : state) (entry : InputSong) (skip : bool)
    (keys keys1 keys2 : list key) :
  py_index input_songs (i st) = Some (EntrySong entry) ->
  matches_for entry = [] ->
  input tt keys = Ret tt tt keys1 ->
  confirm_action tt keys1 = Ret skip tt keys2 ->
  body st keys = on_no_match skip st keys2.
Proof.
  intros Hentry Hnone Hinput Hconfirm.
  unfold loop_body, bind, get, subscript. rewrite Hentry. unfold ret at 1.
  rewrite input_or_cancel_enter with (keys1 := keys1) by assumption.
  rewrite Hnone.
  unfold call. now rewrite Hconfirm.
Qed.

Lemma loop_body_break (st : state) (answer : bool * bool)
    (keys keys1 : list key) :
  py_index input_songs (i st) = Some EntryBreak ->
  truthy break_url = true ->
  confirm_break tt keys = Ret answer tt keys1 ->
  body st keys = on_break urljoin host_url break_url answer st keys1.
Proof.
  intros Hentry Hurl Hconfirm.
  unfold loop_body, bind, get, subscript. rewrite Hentry, Hurl.
  unfold ret at 1. simpl. unfold call. now rewrite Hconfirm.
Qed.

Lemma select_match_nonempty (matches : list Match) (song_title : string)
    (m : Match) (go_back : bool) (keys rest : list key) :
  select_match html_ok matches song_title tt keys
  = Ret (Some m, go_back) tt rest ->
  In m matches.
Proof.
  intros H.
  pose proof (select_match_spec html_ok matches song_title keys) as Hspec.
  rewrite H in Hspec. simpl in Hspec. tauto.
Qed.

(** A go-back on the item after a break without a destination: the
    cursor is on that item again when the operator is next asked. *)
Lemma go_back_onto_inert_break (st : state) (entry : InputSong)
    (selected : option Match) (keys keys1 keys2 : list key) :
  truthy break_url = false ->
  1 <= i st ->
  py_index input_songs (i st - 1) = Some EntryBreak ->
  py_index input_songs (i st) = Some (EntrySong entry) ->
  matches_for entry <> [] ->
  input tt keys = Ret tt tt keys1 ->
  select_match html_ok (matches_for entry) (heading entry) tt keys1
  = Ret (selected, true) tt keys2 ->
  (body ;; body) st keys = Ret tt st keys2.
Proof.
  intros Hurl Hi Hbreak Hentry Hsome Hinput Hselect.
  unfold bind at 1.
  rewrite loop_body_select
    with (entry := entry) (answer := (selected, true))
         (keys1 := keys1) (keys2 := keys2) by assumption.
  rewrite on_select_go_back.
  rewrite loop_body_inert_break; simpl; auto.
  - destruct st as [i0 records urls]. unfold set_i. simpl in *.
    repeat f_equal. lia.
  - replace (Z.max 0 (i st - 1)) with (i st - 1) by lia. assumption.
Qed.

(** C5: the cursor is never negative: not where the loop condition is
    evaluated, not where the loop stops, waits for a key or exits.  As
    long as the cursor has not moved forward it is 0, whatever the
    operator typed; a go-back from a song's choices or from a break's
    sets the cursor to [max(0, i - 1)], and at 0 leaves the state as
    it was. *)
Theorem cursor_never_negative (n fuel : nat) (keys : list key) :
  (forall st, In st (trace n initial keys) -> 0 <= i st)
  /\ (forall r, loop fuel initial keys = Some r -> 0 <= i (state_of r))
  /\ (advances (trace n initial keys) = 0%nat ->
      forall st, In st (trace n initial keys) -> i st = 0)
  /\ (forall st ks selected take_break,
        on_select urljoin host_url (selected, true) st ks
        = Ret tt (set_i (Z.max 0 (i st - 1)) st) ks
        /\ on_break urljoin host_url break_url (take_break, true) st ks
           = Ret tt (set_i (Z.max 0 (i st - 1)) st) ks
        /\ 0 <= i (set_i (Z.max 0 (i st - 1)) st)
        /\ (i st = 0 -> set_i (Z.max 0 (i st - 1)) st = st)).
Proof.
  assert (H0 : 0 <= i initial) by (simpl; lia).
  split; [|split; [|split]].
  - intros st Hin. exact (visited_nonneg n initial keys H0 st Hin).
  - intros r Hrun.
    exact (proj1 (main_loop_result fuel initial keys H0 Hrun)).
  - intros Hadv st Hin.
    pose proof (visited_nonneg n initial keys H0 st Hin).
    pose proof (visited_no_advance n initial keys H0 Hadv st Hin) as Hle.
    simpl in Hle. lia.
  - intros st ks selected take_break. repeat split.
    + simpl. lia.
    + intros Hi. destruct st as [i0 records urls]. unfold set_i.
      simpl in *. subst. reflexivity.
Qed.


(** C1, as the loop has it: a go-back changes the cursor and nothing
    else, and no iteration removes a record: the outcome list at a
    later evaluation of the loop condition extends the earlier one.
    After a go-back at index 2 and a second pick at index 1, the run
    ends with both records of index 1 in the list, the earlier one
    still in its place. *)
Theorem go_back_keeps_records (n : nat) (keys : list key) :
  (forall st ks selected take_break,
     on_select urljoin host_url (selected, true) st ks
     = Ret tt (set_i (Z.max 0 (i st - 1)) st) ks
     /\ on_break urljoin host_url break_url (take_break, true) st ks
        = Ret tt (set_i (Z.max 0 (i st - 1)) st) ks
     /\ selected_songs (set_i (Z.max 0 (i st - 1)) st) = selected_songs st)
  /\ (forall st st', 0 <= i st -> In st' (trace n st keys) ->
        exists more, selected_songs st' = selected_songs st ++ more)
  /\ Scenario.run None Scenario.three_songs 6 Scenario.rewind_keys
     = Some (Ret tt
               (mkState 3
                  [Scenario.record Scenario.match_a;
                   Scenario.record Scenario.match_b;
                   Scenario.record Scenario.match_b;
                   Scenario.record Scenario.match_c]
                  ["http://uke/songbook/a"; "http://uke/songbook/b";
                   "http://uke/songbook/b"; "http://uke/songbook/c"])
               []).
Proof.
  split; [|split].
  - intros st ks selected take_break. repeat split.
  - intros st st' Hst Hin. exact (visited_prefix n st keys Hst st' Hin).
  - vm_compute. reflexivity.
Qed.


(** C8, as the loop has it: when a song has no match and the operator
    answers no to the confirmation, the loop exits at once with code 1
    in the state the iteration began in, whatever follows in the
    setlist and whatever the operator typed next.  Of the exits of the
    loop it is the only one with a code other than 0: a run that exits
    with another code than 0 exits with code 1, where the loop
    condition was last evaluated, on a song without matches, with the
    keys left there being an Enter for the announcement and a no to
    the confirmation.  The other exit is the one of Ctrl-C, with
    code 0: Ctrl-C at the announcement of a song ends the run at once,
    whatever matches the song has.  Nothing is said of a run that an
    exception ends. *)
Theorem decline_is_the_only_abort (fuel : nat) (st : state)
    (keys : list key) :
  0 <= i st ->
  (forall entry keys1 keys2,
     i st < len input_songs ->
     py_index input_songs (i st) = Some (EntrySong entry) ->
     matches_for entry = [] ->
     input tt keys = Ret tt tt keys1 ->
     confirm_action tt keys1 = Ret false tt keys2 ->
     loop (S fuel) st keys = Some (SysExit 1 st))
  /\ (forall code st', loop fuel st keys = Some (SysExit code st') ->
        (code = 0 /\ In KeyCtrlC keys)
        \/ (code = 1
            /\ exists n keys0 entry keys1 keys2,
                 configuration n st keys = Some (st', keys0)
                 /\ py_index input_songs (i st') = Some (EntrySong entry)
                 /\ matches_for entry = []
                 /\ input tt keys0 = Ret tt tt keys1
                 /\ confirm_action tt keys1 = Ret false tt keys2))
  /\ (forall entry rest,
        i st < len input_songs ->
        py_index input_songs (i st) = Some (EntrySong entry) ->
        loop (S fuel) st (KeyCtrlC :: rest) = Some (SysExit 0 st)).
Proof.
  intros Hst. split; [|split].
  - intros entry keys1 keys2 Hlt Hentry Hnone Hinput Hconfirm. simpl.
    destruct (Z.ltb_spec (i st) (len input_songs)); [|lia].
    rewrite loop_body_no_match
      with (entry := entry) (skip := false)
           (keys1 := keys1) (keys2 := keys2) by assumption.
    reflexivity.
  - intros code st' Hrun.
    exact (proj2 (main_loop_result fuel st keys Hst Hrun)).
  - intros entry rest Hlt Hentry. simpl.
    destruct (Z.ltb_spec (i st) (len input_songs)); [|lia].
    unfold loop_body, bind, get, subscript. rewrite Hentry.
    reflexivity.
Qed.

End MainFacts.

(** ** Python strings *)

Section StripFacts.
Variable drop : ascii -> bool.

Lemma lstrip_keeps (s : list ascii) :
  match s with
  | [] => True
  | c :: _ => drop c = false
  end ->
  lstrip_chars drop s = s.
Proof. destruct s as [|c s]; simpl; [reflexivity|]. now intros ->. Qed.

Lemma lstrip_head (s : list ascii) :
  match lstrip_chars drop s with
  | [] => True
  | c :: _ => drop c = false
  end.
Proof.
  induction s as [|c s IH]; simpl; [exact I|].
  destruct (drop c) eqn:Hc; [exact IH | exact Hc].
Qed.

Lemma lstrip_In (c : ascii) (s : list ascii) :
  In c (lstrip_chars drop s) -> In c s.
Proof.
  induction s as [|x s IH]; simpl; [tauto|].
  destruct (drop x); simpl; auto.
Qed.

Lemma lstrip_all (s : list ascii) :
  Forall (fun c => drop c = true) s -> lstrip_chars drop s = [].
Proof. induction 1 as [|c s Hc _ IH]; simpl; [reflexivity|]. now rewrite Hc. Qed.

Lemma lstrip_app_dropped (w s : list ascii) :
  Forall (fun c => drop c = true) w ->
  lstrip_chars drop (w ++ s) = lstrip_chars drop s.
Proof. induction 1 as [|c w Hc _ IH]; simpl; [reflexivity|]. now rewrite Hc. Qed.

Lemma lstrip_nil_all (s : list ascii) :
  lstrip_chars drop s = [] -> Forall (fun c => drop c = true) s.
Proof.
  induction s as [|c s IH]; simpl; [constructor|].
  destruct (drop c) eqn:Hc; [|discriminate]. auto.
Qed.

Lemma rstrip_cons (c : ascii) (s : list ascii) :
  rstrip_chars drop (c :: s)
  = match rstrip_chars drop s with
    | [] => if drop c then [] else [c]
    | kept => c :: kept
    end.
Proof. reflexivity. Qed.

Lemma rstrip_nil_all (s : list ascii) :
  rstrip_chars drop s = [] <-> Forall (fun c => drop c = true) s.
Proof.
  induction s as [|c s IH]; [simpl; split; auto|].
  rewrite rstrip_cons. split.
  - destruct (rstrip_chars drop s); [|discriminate].
    destruct (drop c) eqn:Hc; [|discriminate].
    intros _. constructor; [assumption | exact (proj1 IH eq_refl)].
  - intros H. inversion H as [|? ? Hc Hs]; subst.
    rewrite (proj2 IH Hs), Hc. reflexivity.
Qed.

Lemma rstrip_In (c : ascii) (s : list ascii) :
  In c (rstrip_chars drop s) -> In c s.
Proof.
  induction s as [|x s IH]; [simpl; tauto|].
  rewrite rstrip_cons. destruct (rstrip_chars drop s) as [|k kept].
  - destruct (drop x); simpl; tauto.
  - intros [->|Hin]; [now left | right; now apply IH].
Qed.

Lemma rstrip_idem (s : list ascii) :
  rstrip_chars drop (rstrip_chars drop s) = rstrip_chars drop s.
Proof.
  induction s as [|c s IH]; [reflexivity|].
  rewrite rstrip_cons. destruct (rstrip_chars drop s) as [|k kept] eqn:Hs.
  - destruct (drop c) eqn:Hc; [reflexivity|].
    rewrite rstrip_cons. simpl. now rewrite Hc.
  - rewrite rstrip_cons, IH. reflexivity.
Qed.

Lemma rstrip_app_kept (pre s : list ascii) :
  rstrip_chars drop s <> [] ->
  rstrip_chars drop (pre ++ s) = pre ++ rstrip_chars drop s.
Proof.
  intros Hs. induction pre as [|c pre IH]; [reflexivity|].
  simpl app. rewrite rstrip_cons, IH.
  destruct (pre ++ rstrip_chars drop s) eqn:Happ; [|reflexivity].
  apply app_eq_nil in Happ. tauto.
Qed.

Lemma rstrip_app_dropped (s w : list ascii) :
  Forall (fun c => drop c = true) w ->
  rstrip_chars drop (s ++ w) = rstrip_chars drop s.
Proof.
  intros Hw. induction s as [|c s IH].
  - simpl. exact (proj2 (rstrip_nil_all w) Hw).
  - simpl app. now rewrite !rstrip_cons, IH.
Qed.

Lemma rstrip_head (c : ascii) (s : list ascii) :
  drop c = false -> exists kept, rstrip_chars drop (c :: s) = c :: kept.
Proof.
  intros Hc. rewrite rstrip_cons, Hc.
  destruct (rstrip_chars drop s); eauto.
Qed.

(** What [rstrip] removes is a run of dropped characters at the end,
    and what it keeps does not end in one. *)
Lemma rstrip_split (s : list ascii) :
  exists w, s = rstrip_chars drop s ++ w
            /\ Forall (fun c => drop c = true) w.
Proof.
  induction s as [|c s [w [Hs Hw]]]; [exists []; auto|].
  rewrite rstrip_cons. destruct (rstrip_chars drop s) as [|k kept] eqn:Hk.
  - destruct (drop c) eqn:Hc.
    + exists (c :: s). split; [reflexivity|].
      constructor; [assumption | exact (proj1 (rstrip_nil_all s) Hk)].
    + exists w. simpl in *. split; [congruence | assumption].
  - exists w. simpl in *. split; [congruence | assumption].
Qed.

Lemma rstrip_last (s : list ascii) (c : ascii) :
  rstrip_chars drop s <> [] ->
  drop (last (rstrip_chars drop s) c) = false.
Proof.
  induction s as [|x s IH]; [simpl; congruence|].
  rewrite rstrip_cons. destruct (rstrip_chars drop s) as [|k kept].
  - destruct (drop x) eqn:Hx; [congruence | intros _; exact Hx].
  - intros _. change (last (x :: k :: kept) c) with (last (k :: kept) c).
    apply IH. discriminate.
Qed.

Lemma strip_lstrip_fixed (s : list ascii) :
  lstrip_chars drop (rstrip_chars drop (lstrip_chars drop s))
  = rstrip_chars drop (lstrip_chars drop s).
Proof.
  apply lstrip_keeps. pose proof (lstrip_head s) as Hhead.
  destruct (lstrip_chars drop s) as [|c t]; [exact I|].
  destruct (rstrip_head t Hhead) as [kept ->]. exact Hhead.
Qed.

Lemma strip_idem (s : list ascii) :
  let strip t := rstrip_chars drop (lstrip_chars drop t) in
  strip (strip s) = strip s.
Proof. simpl. now rewrite strip_lstrip_fixed, rstrip_idem. Qed.

Lemma strip_fixed (s : list ascii) :
  rstrip_chars drop (lstrip_chars drop s) = s ->
  lstrip_chars drop s = s /\ rstrip_chars drop s = s.
Proof.
  intros H. assert (Hl : lstrip_chars drop s = s).
  { rewrite <- H at 1. rewrite strip_lstrip_fixed. exact H. }
  split; [exact Hl|]. now rewrite Hl in H.
Qed.

End StripFacts.

Section SplitFacts.
Variable sep : ascii.

Lemma split_cons (c : ascii) (s : list ascii) :
  split_chars sep (c :: s)
  = if Ascii.eqb c sep then [] :: split_chars sep s
    else match split_chars sep s with
         | part :: parts => (c :: part) :: parts
         | [] => [[c]]
         end.
Proof. reflexivity. Qed.

Lemma split_nonempty (s : list ascii) : split_chars sep s <> [].
Proof.
  induction s as [|c s IH]; [discriminate|].
  rewrite split_cons. destruct (Ascii.eqb c sep); [discriminate|].
  destruct (split_chars sep s); discriminate.
Qed.

Lemma split_length (s : list ascii) :
  List.length (split_chars sep s) = S (count_occ ascii_dec s sep).
Proof.
  induction s as [|c s IH]; [reflexivity|].
  rewrite split_cons. simpl count_occ.
  destruct (Ascii.eqb_spec c sep) as [->|Hne].
  - destruct (ascii_dec sep sep); [|congruence]. simpl. now rewrite IH.
  - destruct (ascii_dec c sep); [congruence|].
    destruct (split_chars sep s); simpl in *; lia.
Qed.

Lemma split_no_sep (s : list ascii) :
  Forall (fun part => ~ In sep part) (split_chars sep s).
Proof.
  induction s as [|c s IH]; [repeat constructor; auto|].
  rewrite split_cons. destruct (Ascii.eqb_spec c sep) as [->|Hne].
  - constructor; auto.
  - destruct (split_chars sep s) as [|part parts].
    + repeat constructor. simpl. intuition.
    + inversion IH; subst. constructor; [|assumption].
      simpl. intuition.
Qed.

Lemma split_free (part : list ascii) :
  ~ In sep part -> split_chars sep part = [part].
Proof.
  induction part as [|c part IH]; [reflexivity|].
  intros Hnot. rewrite split_cons.
  destruct (Ascii.eqb_spec c sep) as [->|Hne]; [simpl in Hnot; tauto|].
  rewrite IH; [reflexivity|]. simpl in Hnot. tauto.
Qed.

Lemma split_app (part s : list ascii) :
  ~ In sep part ->
  split_chars sep (part ++ sep :: s) = part :: split_chars sep s.
Proof.
  induction part as [|c part IH]; intros Hnot.
  - simpl app. rewrite split_cons, Ascii.eqb_refl. reflexivity.
  - simpl app. rewrite split_cons.
    destruct (Ascii.eqb_spec c sep) as [->|Hne]; [simpl in Hnot; tauto|].
    rewrite IH; [reflexivity|]. simpl in Hnot. tauto.
Qed.

(** The first part of a string that starts with another character than
    the separator starts with that character. *)
Lemma split_first (c : ascii) (s : list ascii) :
  c <> sep ->
  exists part parts, split_chars sep (c :: s) = (c :: part) :: parts.
Proof.
  intros Hne. rewrite split_cons.
  destruct (Ascii.eqb_spec c sep); [congruence|].
  destruct (split_chars sep s); eauto.
Qed.

End SplitFacts.

Lemma list_ascii_of_string_app (s1 s2 : string) :
  list_ascii_of_string (s1 ++ s2)%string
  = list_ascii_of_string s1 ++ list_ascii_of_string s2.
Proof. induction s1 as [|c s1 IH]; simpl; [reflexivity|]. now rewrite IH. Qed.

Lemma string_of_list_ascii_app (l1 l2 : list ascii) :
  string_of_list_ascii (l1 ++ l2)
  = (string_of_list_ascii l1 ++ string_of_list_ascii l2)%string.
Proof. induction l1 as [|x l1 IH]; simpl; [reflexivity|]. now rewrite IH. Qed.

Lemma string_of_list_ascii_inj (l1 l2 : list ascii) :
  string_of_list_ascii l1 = string_of_list_ascii l2 -> l1 = l2.
Proof.
  intros H. rewrite <- (list_ascii_of_string_of_list_ascii l1),
                    <- (list_ascii_of_string_of_list_ascii l2).
  now rewrite H.
Qed.

Lemma str_strip_chars (s : string) :
  list_ascii_of_string (str_strip s)
  = rstrip_chars isspace (lstrip_chars isspace (list_ascii_of_string s)).
Proof. unfold str_strip. apply list_ascii_of_string_of_list_ascii. Qed.

Lemma str_strip_idem (s : string) : str_strip (str_strip s) = str_strip s.
Proof.
  unfold str_strip at 1. rewrite str_strip_chars.
  rewrite (strip_idem isspace). reflexivity.
Qed.

Lemma str_strip_fixed (s : string) :
  str_strip s = s ->
  lstrip_chars isspace (list_ascii_of_string s) = list_ascii_of_string s
  /\ rstrip_chars isspace (list_ascii_of_string s) = list_ascii_of_string s.
Proof.
  intros H. apply strip_fixed. rewrite <- str_strip_chars. now rewrite H.
Qed.

Lemma str_strip_In (c : ascii) (s : string) :
  In c (list_ascii_of_string (str_strip s)) -> In c (list_ascii_of_string s).
Proof.
  rewrite str_strip_chars. intros H.
  apply lstrip_In with (drop := isspace).
  now apply rstrip_In with (drop := isspace).
Qed.

Lemma isspace_tab : isspace tab = true.
Proof. reflexivity. Qed.

(** ** models.py: reading the setlist *)

Lemma str_split_tab_parts (s : string) :
  exists part parts,
    map str_strip (str_split_tab s) = part :: parts
    /\ List.length (part :: parts) = S (tabs s).
Proof.
  unfold str_split_tab, tabs.
  pose proof (split_length tab (list_ascii_of_string s)) as Hlen.
  destruct (split_chars tab (list_ascii_of_string s)) as [|p ps] eqn:Hs.
  - simpl in Hlen. discriminate.
  - change "009"%char with tab. rewrite Hs. simpl map.
    eexists _, _. split; [reflexivity|].
    simpl in *. rewrite !length_map. exact Hlen.
Qed.

(** A line gives no entry or one, whatever was read before it. *)
Lemma read_line_shape (line : string) :
  exists entries,
    (List.length entries <= 1)%nat
    /\ forall songs, read_line songs line = inr (songs ++ entries).
Proof.
  unfold read_line.
  destruct (String.eqb (str_strip line) "").
  { exists []. split; [simpl; lia|]. intros. now rewrite app_nil_r. }
  destruct (str_split_tab_parts (str_strip line))
    as [p0 [rest [-> _]]].
  destruct (String.eqb p0 "Break").
  { exists [EntryBreak]. split; [simpl; lia | reflexivity]. }
  destruct rest as [|a [|g [|l rest]]];
    try (exists []; split; [simpl; lia|];
         intros; simpl; now rewrite app_nil_r).
  exists [EntrySong (mkInputSong p0 a g l)]. split; [simpl; lia|].
  intros songs.
  destruct (Z.geb_spec (len (p0 :: a :: g :: l :: rest)) 4) as [_|Hlt];
    [reflexivity|].
  unfold len in Hlt. simpl List.length in Hlt. lia.
Qed.

Lemma read_lines_shape (lines : list string) :
  exists entries,
    (List.length entries <= List.length lines)%nat
    /\ forall songs, read_lines songs lines = inr (songs ++ entries).
Proof.
  induction lines as [|line lines [rest [Hlen Hrest]]].
  - exists []. split; [simpl; lia|]. intros. simpl. now rewrite app_nil_r.
  - destruct (read_line_shape line) as [first [Hone Hfirst]].
    exists (first ++ rest). split.
    + rewrite length_app. simpl. lia.
    + intros songs. simpl. rewrite Hfirst, Hrest. now rewrite app_assoc.
Qed.

Lemma read_lines_app (songs : list Entry) (lines1 lines2 : list string) :
  read_lines songs (lines1 ++ lines2)
  = match read_lines songs lines1 with
    | inr songs' => read_lines songs' lines2
    | inl e => inl e
    end.
Proof.
  revert songs. induction lines1 as [|line lines1 IH]; intros songs;
    [reflexivity|].
  simpl. destruct (read_line songs line); [reflexivity | apply IH].
Qed.

(** *** The lines of a file *)

Lemma universal_newlines_app (s1 s2 : list ascii) :
  forall b,
  universal_newlines b (s1 ++ s2)
  = universal_newlines b s1 ++ universal_newlines (cr_pending b s1) s2.
Proof.
  induction s1 as [|c s1 IH]; intros b; [reflexivity|].
  simpl. destruct (Ascii.eqb c carriage_return).
  - now rewrite IH.
  - destruct (Ascii.eqb c line_feed); [destruct b|]; now rewrite IH.
Qed.

Lemma cr_pending_last (s : list ascii) (c : ascii) :
  forall b, cr_pending b (s ++ [c]) = Ascii.eqb c carriage_return.
Proof.
  induction s as [|d s IH]; intros b; [reflexivity|]. simpl. apply IH.
Qed.

(** Characters that are none, or end with a line feed. *)
Lemma universal_newlines_pending (s : list ascii) (b : bool) :
  cr_pending b s = true ->
  universal_newlines b s = []
  \/ exists q, universal_newlines b s = q ++ [line_feed].
Proof.
  destruct s as [|d s]; [now left|].
  destruct (@exists_last _ (d :: s) ltac:(discriminate)) as [p [c ->]].
  intros Hpending. rewrite cr_pending_last in Hpending.
  apply Ascii.eqb_eq in Hpending. subst c. right.
  rewrite universal_newlines_app. simpl. eauto.
Qed.

Lemma universal_newlines_closed (p : list ascii) (b : bool) :
  universal_newlines b (p ++ [line_feed]) = []
  \/ exists q, universal_newlines b (p ++ [line_feed]) = q ++ [line_feed].
Proof.
  rewrite universal_newlines_app. simpl.
  destruct (cr_pending b p) eqn:Hpending.
  - rewrite app_nil_r. now apply universal_newlines_pending.
  - right. eauto.
Qed.

Lemma universal_newlines_In (c : ascii) (s : list ascii) :
  forall b, In c (universal_newlines b s) -> c = line_feed \/ In c s.
Proof.
  induction s as [|d s IH]; intros b; simpl; [tauto|].
  destruct (Ascii.eqb d carriage_return).
  - intros [<-|Hin]; [now left|]. destruct (IH _ Hin); auto.
  - destruct (Ascii.eqb_spec d line_feed) as [->|_]; [destruct b|].
    + intros Hin. destruct (IH _ Hin); auto.
    + intros [<-|Hin]; [now left|]. destruct (IH _ Hin); auto.
    + intros [<-|Hin]; [auto|]. destruct (IH _ Hin); auto.
Qed.

Lemma universal_newlines_line (line rest : list ascii) :
  ~ In line_feed line -> ~ In carriage_return line ->
  universal_newlines false (line ++ line_feed :: rest)
  = line ++ line_feed :: universal_newlines false rest.
Proof.
  induction line as [|c line IH]; intros Hlf Hcr; [reflexivity|].
  simpl in *.
  destruct (Ascii.eqb_spec c carriage_return) as [->|_]; [tauto|].
  destruct (Ascii.eqb_spec c line_feed) as [->|_]; [tauto|].
  rewrite IH by tauto. reflexivity.
Qed.

Lemma lines_of_nonempty (c : ascii) (s : list ascii) :
  exists line lines, lines_of (c :: s) = line :: lines.
Proof.
  simpl. destruct (Ascii.eqb c line_feed); [eauto|].
  destruct (lines_of s); eauto.
Qed.

Lemma lines_of_app (q rest : list ascii) :
  lines_of ((q ++ [line_feed]) ++ rest)
  = lines_of (q ++ [line_feed]) ++ lines_of rest.
Proof.
  induction q as [|c q IH]; [reflexivity|].
  simpl. destruct (Ascii.eqb c line_feed); [now rewrite IH|].
  simpl in IH. rewrite IH.
  destruct (q ++ [line_feed]) as [|d s] eqn:Hq;
    [destruct q; discriminate|].
  destruct (lines_of_nonempty d s) as [line [lines ->]]. reflexivity.
Qed.

Lemma lines_of_line (line rest : list ascii) :
  ~ In line_feed line ->
  lines_of (line ++ line_feed :: rest)
  = (line ++ [line_feed]) :: lines_of rest.
Proof.
  induction line as [|c line IH]; intros Hlf; [reflexivity|].
  simpl in *.
  destruct (Ascii.eqb_spec c line_feed) as [->|_]; [tauto|].
  rewrite IH by tauto. reflexivity.
Qed.

Lemma lines_of_In (c : ascii) (s line : list ascii) :
  In line (lines_of s) -> In c line -> In c s.
Proof.
  revert line. induction s as [|d s IH]; intros line; simpl; [tauto|].
  destruct (Ascii.eqb d line_feed).
  - intros [<-|Hin] Hc; [simpl in Hc; tauto|]. right. eapply IH; eauto.
  - destruct (lines_of s) as [|first others].
    + intros [<-|[]] Hc. simpl in Hc. tauto.
    + intros [<-|Hin] Hc.
      * destruct Hc as [<-|Hc]; [now left|]. right.
        apply (IH first); simpl; auto.
      * right. apply (IH line); simpl; auto.
Qed.

(** The lines of a text of whole lines followed by another text are
    the lines of the one followed by the lines of the other. *)
Lemma file_lines_app (text1 text2 : string) :
  whole_lines text1 ->
  file_lines (text1 ++ text2) = file_lines text1 ++ file_lines text2.
Proof.
  intros [->|[lines ->]]; [reflexivity|].
  unfold file_lines. rewrite !list_ascii_of_string_app.
  simpl list_ascii_of_string.
  rewrite universal_newlines_app, cr_pending_last.
  change (Ascii.eqb line_feed carriage_return) with false.
  destruct (universal_newlines_closed (list_ascii_of_string lines) false)
    as [->|[q ->]]; [reflexivity|].
  rewrite lines_of_app, map_app. reflexivity.
Qed.

Lemma file_lines_blank (text : string) :
  blank text -> Forall blank (file_lines text).
Proof.
  intros Hblank. unfold file_lines. apply Forall_forall.
  intros line Hin. apply in_map_iff in Hin.
  destruct Hin as [chars [<- Hin]]. unfold blank.
  rewrite list_ascii_of_string_of_list_ascii. apply Forall_forall.
  intros c Hc.
  destruct (@universal_newlines_In c _ false
              (@lines_of_In c _ chars Hin Hc))
    as [->|Hc']; [reflexivity|].
  unfold blank in Hblank. rewrite Forall_forall in Hblank. auto.
Qed.

Lemma read_line_blank (songs : list Entry) (line : string) :
  blank line -> read_line songs line = inr songs.
Proof.
  intros Hblank. unfold read_line.
  assert (Hstrip : str_strip line = "").
  { unfold str_strip. rewrite lstrip_all by exact Hblank. reflexivity. }
  rewrite Hstrip. reflexivity.
Qed.

Lemma read_lines_blank (songs : list Entry) (lines : list string) :
  Forall blank lines -> read_lines songs lines = inr songs.
Proof.
  induction 1 as [|line lines Hline _ IH]; [reflexivity|].
  simpl. now rewrite read_line_blank.
Qed.

Lemma file_lines_written (songs : list InputSong) :
  Forall writable songs ->
  file_lines (written songs)
  = map (fun s => (format_line s ++ String line_feed "")%string) songs.
Proof.
  induction 1 as [|s songs Hs _ IH]; [reflexivity|].
  destruct Hs as [_ [_ [_ [_ [_ [_ [_ [Hlf Hcr]]]]]]]].
  simpl. rewrite <- IH. unfold file_lines.
  rewrite list_ascii_of_string_app. simpl list_ascii_of_string.
  rewrite universal_newlines_line by assumption.
  rewrite lines_of_line by assumption.
  simpl. rewrite string_of_list_ascii_app, string_of_list_ascii_of_string.
  reflexivity.
Qed.


(** X2: lines of white space only (an empty line, a line of blanks and
    tabs) contribute nothing: the file reads as it does without them,
    and so does a list of lines. *)
Theorem read_input_list_blank_line (before line after : string) :
  whole_lines before -> whole_lines line -> blank line ->
  read_input_list (Text (before ++ line ++ after))
  = read_input_list (Text (before ++ after))
  /\ forall songs lines1 lines2,
       read_lines songs (lines1 ++ line :: lines2)
       = read_lines songs (lines1 ++ lines2).
Proof.
  intros Hbefore Hline Hblank. split.
  - unfold read_input_list.
    rewrite !file_lines_app by assumption. rewrite !read_lines_app.
    destruct (read_lines [] (file_lines before)) as [e|songs];
      [reflexivity|].
    rewrite read_lines_app.
    now rewrite read_lines_blank by (now apply file_lines_blank).
  - intros songs lines1 lines2. rewrite !read_lines_app.
    destruct (read_lines songs lines1) as [e|songs']; [reflexivity|].
    simpl. now rewrite read_line_blank.
Qed.


Lemma format_line_chars (s : InputSong) :
  list_ascii_of_string (format_line s)
  = list_ascii_of_string (title s)
    ++ tab :: list_ascii_of_string (artist s)
    ++ tab :: list_ascii_of_string (gema_nr s)
    ++ tab :: list_ascii_of_string (leader s).
Proof.
  unfold format_line.
  repeat (rewrite list_ascii_of_string_app; simpl list_ascii_of_string).
  reflexivity.
Qed.

Lemma nonempty_chars (s : string) :
  s <> "" -> list_ascii_of_string s <> [].
Proof. destruct s; [congruence | discriminate]. Qed.

Lemma str_strip_padded (lead body trail : string) :
  blank lead -> blank trail ->
  str_strip body = body ->
  str_strip (lead ++ body ++ trail) = body.
Proof.
  intros Hlead Htrail Hbody. unfold str_strip.
  rewrite !list_ascii_of_string_app.
  rewrite lstrip_app_dropped by exact Hlead.
  destruct (str_strip_fixed Hbody) as [Hl Hr].
  destruct (list_ascii_of_string body) as [|c chars] eqn:Hchars.
  - simpl. rewrite lstrip_all by exact Htrail. simpl.
    rewrite <- (string_of_list_ascii_of_string body), Hchars. reflexivity.
  - pose proof (lstrip_head isspace (c :: chars)) as Hhead.
    rewrite Hl in Hhead. simpl app.
    rewrite lstrip_keeps by exact Hhead.
    change (c :: chars ++ list_ascii_of_string trail)
      with ((c :: chars) ++ list_ascii_of_string trail).
    rewrite rstrip_app_dropped by exact Htrail.
    rewrite Hr, <- Hchars. apply string_of_list_ascii_of_string.
Qed.

Lemma format_line_stripped (s : InputSong) :
  writable s -> str_strip (format_line s) = format_line s.
Proof.
  intros [[Ht _] [_ [_ [[Hl _] [Ht0 [_ [Hl0 _]]]]]]].
  unfold str_strip. rewrite format_line_chars.
  destruct (str_strip_fixed Ht) as [Htl _].
  destruct (str_strip_fixed Hl) as [_ Hlr].
  pose proof (nonempty_chars Ht0) as Htne.
  pose proof (nonempty_chars Hl0) as Hlne.
  destruct (list_ascii_of_string (title s)) as [|c chars] eqn:Htitle;
    [congruence|].
  pose proof (lstrip_head isspace (c :: chars)) as Hhead.
  rewrite Htl in Hhead. simpl app at 1.
  rewrite lstrip_keeps by exact Hhead.
  set (pre := c :: chars ++ tab :: list_ascii_of_string (artist s)
                ++ tab :: list_ascii_of_string (gema_nr s) ++ [tab]).
  assert (Hshape :
            c :: chars ++ tab :: list_ascii_of_string (artist s)
              ++ tab :: list_ascii_of_string (gema_nr s)
              ++ tab :: list_ascii_of_string (leader s)
            = pre ++ list_ascii_of_string (leader s)).
  { unfold pre. simpl. repeat (rewrite <- app_assoc; simpl). reflexivity. }
  rewrite Hshape, rstrip_app_kept by (rewrite Hlr; exact Hlne).
  rewrite Hlr, <- Hshape.
  rewrite <- (string_of_list_ascii_of_string (format_line s)).
  rewrite format_line_chars, Htitle. reflexivity.
Qed.

Lemma format_line_parts (s : InputSong) :
  writable s ->
  map str_strip (str_split_tab (format_line s))
  = [title s; artist s; gema_nr s; leader s].
Proof.
  intros [[Ht Htt] [[Ha Hat] [[Hg Hgt] [[Hl Hlt] _]]]].
  unfold str_split_tab. rewrite format_line_chars.
  change "009"%char with tab.
  rewrite split_app by exact Htt.
  rewrite split_app by exact Hat.
  rewrite split_app by exact Hgt.
  rewrite split_free by exact Hlt.
  simpl. rewrite !string_of_list_ascii_of_string.
  now rewrite Ht, Ha, Hg, Hl.
Qed.

(** A line written for a song, with white space around it, reads as
    that song. *)
Lemma read_line_format (songs : list Entry) (s : InputSong)
    (lead trail : string) :
  writable s -> blank lead -> blank trail ->
  read_line songs (lead ++ format_line s ++ trail)
  = inr (songs ++ [EntrySong s]).
Proof.
  intros Hw Hlead Htrail. unfold read_line.
  rewrite str_strip_padded
    by (try assumption; now apply format_line_stripped).
  assert (Hne : String.eqb (format_line s) "" = false).
  { apply String.eqb_neq. intros Heq.
    destruct Hw as [_ [_ [_ [_ [Ht0 _]]]]]. apply Ht0.
    unfold format_line in Heq. destruct (title s); [reflexivity|].
    discriminate. }
  rewrite Hne, format_line_parts by exact Hw.
  destruct Hw as [_ [_ [_ [_ [_ [Hbreak _]]]]]].
  apply String.eqb_neq in Hbreak. rewrite Hbreak.
  destruct s. reflexivity.
Qed.

(** X3: a setlist file written one song a line, the four fields
    separated by tabs and the line ended by a line feed, reads back as
    these songs in this order, provided each song is writable: its
    fields have no tab, no line feed, no carriage return and no white
    space at either end, its title and leader are not empty, and its
    title is not ["Break"]. *)
Theorem read_input_list_round_trip (songs : list InputSong) :
  Forall writable songs ->
  read_input_list (Text (written songs)) = inr (map EntrySong songs).
Proof.
  intros Hall. unfold read_input_list.
  rewrite file_lines_written by exact Hall.
  change (map EntrySong songs) with ([] ++ map EntrySong songs).
  generalize (@nil Entry) as read.
  induction Hall as [|s songs Hs _ IH]; intros read; simpl.
  - now rewrite app_nil_r.
  - pose proof (@read_line_format read s "" (String line_feed "") Hs
                  ltac:(constructor) ltac:(repeat constructor)) as Hline.
    change ("" ++ format_line s ++ String line_feed "")%string
      with (format_line s ++ String line_feed "")%string in Hline.
    rewrite Hline, IH, <- app_assoc. reflexivity.
Qed.

Lemma str_split_tab_clean (s : string) :
  Forall clean_field (map str_strip (str_split_tab s)).
Proof.
  unfold str_split_tab. change "009"%char with tab.
  pose proof (split_no_sep tab (list_ascii_of_string s)) as Hfree.
  induction Hfree as [|piece pieces Hpiece _ IH]; simpl; constructor;
    [|exact IH].
  split; [apply str_strip_idem|].
  intros Hin. apply str_strip_In in Hin.
  rewrite list_ascii_of_string_of_list_ascii in Hin. contradiction.
Qed.

(** The first field of a line that is not blank is not empty. *)
Lemma first_field_nonempty (line : string) :
  str_strip line <> "" -> first_field line <> "".
Proof.
  intros Hne. unfold first_field, str_split_tab.
  change "009"%char with tab. rewrite str_strip_chars.
  pose proof (lstrip_head isspace (list_ascii_of_string line)) as Hhead.
  assert (Hchars : rstrip_chars isspace
                     (lstrip_chars isspace (list_ascii_of_string line))
                   <> []).
  { intros Hnil. apply Hne. unfold str_strip. now rewrite Hnil. }
  destruct (lstrip_chars isspace (list_ascii_of_string line)) as [|c t];
    [simpl in Hchars; congruence|].
  destruct (@rstrip_head isspace c t Hhead) as [kept ->].
  assert (Hsep : c <> tab) by (intros ->; discriminate).
  destruct (@split_first tab c kept Hsep) as [part [parts ->]].
  cbn [map hd]. unfold str_strip.
  rewrite list_ascii_of_string_of_list_ascii.
  rewrite lstrip_keeps by exact Hhead.
  destruct (@rstrip_head isspace c part Hhead) as [kept' ->]. discriminate.
Qed.

Lemma read_line_clean (songs songs' : list Entry) (line : string)
    (s : InputSong) :
  read_line songs line = inr songs' ->
  In (EntrySong s) songs' ->
  In (EntrySong s) songs
  \/ (clean_field (title s) /\ clean_field (artist s)
      /\ clean_field (gema_nr s) /\ clean_field (leader s)
      /\ title s <> "" /\ title s <> "Break").
Proof.
  unfold read_line.
  destruct (String.eqb_spec (str_strip line) "") as [|Hne].
  { intros H Hin. inversion H; subst. now left. }
  pose proof (@first_field_nonempty line Hne) as Hfirst.
  pose proof (str_split_tab_clean (str_strip line)) as Hclean.
  unfold first_field in Hfirst.
  destruct (map str_strip (str_split_tab (str_strip line)))
    as [|p0 rest]; [discriminate|].
  simpl in Hfirst.
  destruct (String.eqb_spec p0 "Break") as [|Hbreak].
  { intros H Hin. inversion H; subst. apply in_app_or in Hin.
    destruct Hin as [Hin|[Hin|[]]]; [now left | discriminate]. }
  destruct (len (p0 :: rest) >=? 4).
  - destruct rest as [|a [|g [|l rest]]]; try discriminate.
    intros H Hin. inversion H; subst. apply in_app_or in Hin.
    destruct Hin as [Hin|[Hin|[]]]; [now left|].
    inversion Hin; subst. right. simpl.
    inversion Hclean as [|? ? H0 Hc1]; subst.
    inversion Hc1 as [|? ? H1 Hc2]; subst.
    inversion Hc2 as [|? ? H2 Hc3]; subst.
    inversion Hc3 as [|? ? H3 _]; subst. tauto.
  - intros H Hin. inversion H; subst. now left.
Qed.

(** X4: every song read from a setlist file has four fields with no tab
    in them and no white space at either end, and a title that is
    neither empty nor ["Break"]. *)
Theorem read_input_list_clean (file : text_file) (entries : list Entry)
    (s : InputSong) :
  read_input_list file = inr entries ->
  In (EntrySong s) entries ->
  clean_field (title s) /\ clean_field (artist s)
  /\ clean_field (gema_nr s) /\ clean_field (leader s)
  /\ title s <> "" /\ title s <> "Break".
Proof.
  unfold read_input_list.
  destruct file as [| | |content]; try discriminate.
  generalize (file_lines content) as lines. intros lines.
  assert (Hgen : forall songs,
             read_lines songs lines = inr entries ->
             In (EntrySong s) entries ->
             In (EntrySong s) songs
             \/ (clean_field (title s) /\ clean_field (artist s)
                 /\ clean_field (gema_nr s) /\ clean_field (leader s)
                 /\ title s <> "" /\ title s <> "Break")).
  { induction lines as [|line lines IH]; intros songs Hread Hin.
    - simpl in Hread. inversion Hread; subst. now left.
    - simpl in Hread.
      destruct (read_line songs line) as [e|songs'] eqn:Hline;
        [discriminate|].
      destruct (IH songs' Hread Hin) as [Hold|Hnew]; [|now right].
      exact (@read_line_clean songs songs' line s Hline Hold). }
  intros Hread Hin. destruct (Hgen [] Hread Hin) as [[]|H]. exact H.
Qed.

Lemma break_chars : list_ascii_of_string "Break" = ["B"; "r"; "e"; "a"; "k"]%char.
Proof. reflexivity. Qed.

(** X5: a line whose first field is ["Break"] is a break marker whatever
    follows the tab after it; so the line written for a song titled
    ["Break"] reads as a break, not as that song. *)
Theorem read_line_break_title (songs : list Entry) (rest : string)
    (s : InputSong) :
  read_line songs ("Break" ++ String tab rest) = inr (songs ++ [EntryBreak])
  /\ (title s = "Break" ->
      read_line songs (format_line s) = inr (songs ++ [EntryBreak])).
Proof.
  assert (Hgen : forall tail,
             read_line songs ("Break" ++ String tab tail)
             = inr (songs ++ [EntryBreak])).
  { intros tail. unfold read_line.
    set (word := ["B"; "r"; "e"; "a"; "k"]%char).
    assert (Hstrip :
              exists kept,
                list_ascii_of_string
                  (str_strip ("Break" ++ String tab tail))
                = word ++ kept
                /\ (kept = [] \/ exists more, kept = tab :: more)).
    { rewrite str_strip_chars, list_ascii_of_string_app.
      simpl list_ascii_of_string. simpl app. fold tab.
      rewrite lstrip_keeps by reflexivity.
      change ("B" :: "r" :: "e" :: "a" :: "k"
                :: tab :: list_ascii_of_string tail)%char
        with (word ++ tab :: list_ascii_of_string tail).
      destruct (rstrip_chars isspace (tab :: list_ascii_of_string tail))
        as [|c kept] eqn:Hkept.
      - exists []. split; [|now left].
        rewrite rstrip_app_dropped
          by exact (proj1 (rstrip_nil_all isspace _) Hkept).
        reflexivity.
      - exists (c :: kept). split.
        + rewrite rstrip_app_kept by (rewrite Hkept; discriminate).
          now rewrite Hkept.
        + right. rewrite rstrip_cons in Hkept.
          destruct (rstrip_chars isspace (list_ascii_of_string tail));
            [simpl in Hkept; discriminate|].
          inversion Hkept; subst. eauto. }
    destruct Hstrip as [kept [Hchars Hkept]].
    assert (Hne : String.eqb (str_strip ("Break" ++ String tab tail)) ""
                  = false).
    { apply String.eqb_neq. intros Heq. rewrite Heq in Hchars.
      discriminate. }
    rewrite Hne. unfold str_split_tab. change "009"%char with tab.
    rewrite Hchars.
    assert (Hparts : exists parts, split_chars tab (word ++ kept)
                                   = word :: parts).
    { destruct Hkept as [->|[more ->]].
      - exists []. reflexivity.
      - exists (split_chars tab more). apply split_app.
        unfold word, tab. simpl. intuition discriminate. }
    destruct Hparts as [parts ->]. reflexivity. }
  split; [apply Hgen|].
  intros Htitle. unfold format_line. rewrite Htitle. apply Hgen.
Qed.

(** X6: a line that is not blank and whose first field is not ["Break"]
    is dropped without a word when it has fewer than three tabs (fewer
    than four fields) once stripped, and gives a song otherwise. *)
Theorem read_line_field_count (songs : list Entry) (line : string) :
  str_strip line <> "" ->
  first_field line <> "Break" ->
  ((tabs (str_strip line) < 3)%nat -> read_line songs line = inr songs)
  /\ ((3 <= tabs (str_strip line))%nat ->
      exists s, read_line songs line = inr (songs ++ [EntrySong s])).
Proof.
  intros Hne Hfirst. unfold read_line, first_field in *.
  apply String.eqb_neq in Hne. rewrite Hne.
  destruct (str_split_tab_parts (str_strip line))
    as [p0 [rest [Hparts Hlen]]].
  rewrite Hparts in *. simpl in Hfirst.
  apply String.eqb_neq in Hfirst. rewrite Hfirst.
  unfold len. rewrite Hlen. split; intros Htabs.
  - destruct (Z.geb_spec (Z.of_nat (S (tabs (str_strip line)))) 4);
      [lia | reflexivity].
  - destruct (Z.geb_spec (Z.of_nat (S (tabs (str_strip line)))) 4);
      [|lia].
    destruct rest as [|a [|g [|l rest]]]; simpl in Hlen; try lia.
    eauto.
Qed.

(** ** client.py *)

Lemma app_sep_inj (A : Type) (c : A) (l1 r1 l2 r2 : list A) :
  l1 ++ c :: r1 = l2 ++ c :: r2 -> ~ In c l1 -> ~ In c l2 ->
  l1 = l2 /\ r1 = r2.
Proof.
  revert l2. induction l1 as [|x l1 IH]; intros [|y l2] Heq H1 H2;
    simpl in *.
  - inversion Heq. auto.
  - inversion Heq; subst. tauto.
  - inversion Heq; subst. tauto.
  - inversion Heq; subst.
    destruct (IH l2 ltac:(assumption) ltac:(tauto) ltac:(tauto)) as [-> ->].
    auto.
Qed.

Lemma string_of_uint_no_paren (d : Decimal.uint) :
  ~ In "("%char
      (list_ascii_of_string (DecimalString.NilEmpty.string_of_uint d)).
Proof.
  induction d; simpl; [tauto|..]; intros [H|H]; try discriminate; auto.
Qed.

Lemma str_of_nat_inj (n m : nat) : str_of_nat n = str_of_nat m -> n = m.
Proof.
  unfold str_of_nat. intros H.
  assert (Huint : Some (Nat.to_uint n) = Some (Nat.to_uint m)).
  { rewrite <- !DecimalString.NilEmpty.usu. now rewrite H. }
  inversion Huint as [Heq].
  rewrite <- (DecimalNat.Unsigned.of_to n), <- (DecimalNat.Unsigned.of_to m).
  now rewrite Heq.
Qed.

Lemma string_app_assoc (a b c : string) :
  ((a ++ b) ++ c)%string = (a ++ b ++ c)%string.
Proof. induction a as [|x a IH]; simpl; [reflexivity|]. now rewrite IH. Qed.

(** Every key ends in the position between parentheses. *)
Lemma song_key_suffix (t a : string) (idx : nat) :
  exists pre, song_key t a idx = (pre ++ " (" ++ str_of_nat idx ++ ")")%string.
Proof.
  unfold song_key. destruct (negb (String.eqb a "")).
  - exists (t ++ " - " ++ a)%string.
    rewrite !string_app_assoc. reflexivity.
  - exists t. reflexivity.
Qed.

(** Keys made for different positions differ. *)
Lemma song_key_position (t1 a1 t2 a2 : string) (idx1 idx2 : nat) :
  song_key t1 a1 idx1 = song_key t2 a2 idx2 -> idx1 = idx2.
Proof.
  destruct (song_key_suffix t1 a1 idx1) as [pre1 ->].
  destruct (song_key_suffix t2 a2 idx2) as [pre2 ->].
  intros Heq. apply (f_equal list_ascii_of_string) in Heq.
  rewrite !list_ascii_of_string_app in Heq. simpl in Heq.
  apply (f_equal (@rev ascii)) in Heq.
  rewrite !rev_app_distr in Heq. simpl in Heq.
  rewrite !rev_app_distr in Heq. simpl in Heq.
  inversion Heq as [Htail].
  rewrite <- !app_assoc in Htail. simpl in Htail.
  apply app_sep_inj in Htail.
  - destruct Htail as [Hdigits _]. apply str_of_nat_inj.
    apply (f_equal (@rev ascii)) in Hdigits.
    rewrite !rev_involutive in Hdigits.
    rewrite <- (string_of_list_ascii_of_string (str_of_nat idx1)),
            <- (string_of_list_ascii_of_string (str_of_nat idx2)).
    now rewrite Hdigits.
  - rewrite <- in_rev. apply string_of_uint_no_paren.
  - rewrite <- in_rev. apply string_of_uint_no_paren.
Qed.

Lemma dict_set_fresh (V : Type) (d : dict V) (k : string) (v : V) :
  ~ In k (map fst d) -> dict_set d k v = d ++ [(k, v)].
Proof.
  induction d as [|[k' v'] d IH]; simpl; [reflexivity|].
  intros Hnot. destruct (String.eqb_spec k' k) as [->|_]; [tauto|].
  rewrite IH by tauto. reflexivity.
Qed.

Lemma dict_get_stored (V : Type) (d : dict V) (k : string) (v : V) :
  dict_wf d -> In (k, v) d -> dict_get d k = Some v.
Proof.
  unfold dict_wf. induction d as [|[k' v'] d IH]; simpl; [tauto|].
  intros Hwf Hin. inversion Hwf as [|? ? Hk Hd]; subst.
  destruct Hin as [Heq|Hin].
  - inversion Heq; subst. now rewrite String.eqb_refl.
  - destruct (String.eqb_spec k' k) as [->|_]; [|auto].
    exfalso. apply Hk. apply in_map_iff. exists (k, v). auto.
Qed.

Lemma link_items_keys (links : list song_link) :
  forall idx k, In k (map fst (link_items idx links)) ->
  exists t a j, k = song_key t a j /\ (idx <= j)%nat.
Proof.
  induction links as [|link links IH]; intros idx k Hin; simpl in Hin;
    [contradiction|].
  rewrite map_app in Hin. apply in_app_or in Hin.
  destruct Hin as [Hin|Hin].
  - destruct (title_elem link); simpl in Hin; [|contradiction].
    destruct Hin as [<-|[]]. eauto.
  - destruct (IH (S idx) k Hin) as [t [a [j [-> Hj]]]].
    exists t, a, j. split; [reflexivity | lia].
Qed.

Lemma link_items_wf (links : list song_link) (idx : nat) :
  dict_wf (link_items idx links).
Proof.
  unfold dict_wf. revert idx.
  induction links as [|link links IH]; intros idx; simpl; [constructor|].
  destruct (title_elem link) as [title|]; simpl; [|apply IH].
  constructor; [|apply IH].
  intros Hin. apply link_items_keys in Hin.
  destruct Hin as [t [a [j [Hkey Hj]]]].
  apply song_key_position in Hkey. lia.
Qed.

Lemma fetch_links_items (links : list song_link) :
  forall idx songs,
    (forall k, In k (map fst songs) ->
       exists t a j, k = song_key t a j /\ (j < idx)%nat) ->
    fetch_links songs idx links = songs ++ link_items idx links.
Proof.
  induction links as [|link links IH]; intros idx songs Hold; simpl.
  - now rewrite app_nil_r.
  - unfold fetch_link.
    destruct (title_elem link) as [title|]; simpl.
    + rewrite dict_set_fresh.
      * rewrite IH; [now rewrite <- app_assoc|].
        intros k Hin. rewrite map_app in Hin. apply in_app_or in Hin.
        destruct Hin as [Hin|[<-|[]]].
        -- destruct (Hold k Hin) as [t [a [j [-> Hj]]]].
           exists t, a, j. split; [reflexivity | lia].
        -- eexists _, _, idx. split; [reflexivity | lia].
      * intros Hin. destruct (Hold _ Hin) as [t [a [j [Hkey Hj]]]].
        apply song_key_position in Hkey. lia.
    + apply IH. intros k Hin.
      destruct (Hold k Hin) as [t [a [j [-> Hj]]]].
      exists t, a, j. split; [reflexivity | lia].
Qed.

(** X7: for a client that is logged in and a page with a song list,
    [fetch_songs] stores one item for each link that has a title
    element, in the order of the links, under a key that no other link
    gets: no song replaces another, equal titles and artists included,
    and looking a stored key up gives the song stored under it. *)
Theorem fetch_songs_items (self : UkebookClient) (links : list song_link) :
  _logged_in self = true ->
  fetch_songs self (Some (Some links)) = inr (link_items 0 links)
  /\ dict_wf (link_items 0 links)
  /\ (forall key entry, In (key, entry) (link_items 0 links) ->
        dict_get (link_items 0 links) key = Some entry)
  /\ List.length (link_items 0 links)
     = List.length (filter (fun link => match title_elem link with
                                        | Some _ => true
                                        | None => false
                                        end) links).
Proof.
  intros Hlogged. unfold fetch_songs. rewrite Hlogged. simpl.
  split; [|split; [|split]].
  - rewrite fetch_links_items; [reflexivity|]. simpl. contradiction.
  - apply link_items_wf.
  - intros key entry Hin. apply dict_get_stored; [apply link_items_wf | exact Hin].
  - generalize 0%nat. induction links as [|link links IH]; intros idx;
      [reflexivity|].
    simpl. rewrite length_app, IH.
    destruct (title_elem link); reflexivity.
Qed.

Lemma logins_logged_in (responses : list (option Z)) :
  forall self,
    is_logged_in (logins self responses)
    = is_logged_in self || existsb redirect responses.
Proof.
  induction responses as [|response responses IH]; intros self; simpl.
  - now rewrite orb_false_r.
  - rewrite IH. unfold login, redirect, is_logged_in.
    destruct response as [code|]; simpl; [|reflexivity].
    destruct ((code =? 301) || (code =? 302)); simpl;
      [now rewrite orb_true_r | reflexivity].
Qed.

(** X8: [login] answers true exactly for a 301 or 302, and a client
    stays logged in once it is: after any sequence of logins on a new
    client, [fetch_songs] raises [RuntimeError] exactly when none of
    them was answered by a 301 or 302; a later failed login does not
    log the client out. *)
Theorem login_sticky (host_url : string) (responses : list (option Z))
    (page : option (option (list song_link))) :
  (fetch_songs (logins (new_client host_url) responses) page
   = inl RuntimeError
   <-> existsb redirect responses = false)
  /\ forall self response,
       snd (login self response) = redirect response
       /\ (is_logged_in self = true ->
           is_logged_in (fst (login self response)) = true).
Proof.
  split.
  - pose proof (logins_logged_in responses (new_client host_url)) as H.
    unfold is_logged_in in H. simpl in H. unfold fetch_songs. rewrite H.
    destruct (existsb redirect responses); simpl.
    + split; [|discriminate]. destruct page as [[links|]|]; discriminate.
    + tauto.
  - intros self response. unfold login, redirect, is_logged_in.
    destruct response as [code|]; simpl; [|tauto].
    destruct ((code =? 301) || (code =? 302)); simpl; tauto.
Qed.

Lemma all_slashes (w : list ascii) :
  Forall (fun c => Ascii.eqb "/" c = true) w ->
  w = repeat "/"%char (List.length w).
Proof.
  induction 1 as [|c w Hc _ IH]; [reflexivity|].
  apply Ascii.eqb_eq in Hc. subst. simpl. now rewrite <- IH.
Qed.

(** X9: the address a client keeps is the given one without the slashes
    at its end, all of them: it does not end in a slash, and the given
    address is it followed by slashes only. *)
Theorem new_client_host_url (host_url : string) :
  (exists n,
     host_url
     = (client_host_url (new_client host_url)
        ++ string_of_list_ascii (repeat "/"%char n))%string)
  /\ forall pre, client_host_url (new_client host_url) <> (pre ++ "/")%string.
Proof.
  simpl. unfold str_rstrip_slash. split.
  - destruct (rstrip_split (Ascii.eqb "/") (list_ascii_of_string host_url))
      as [w [Hw Hall]].
    exists (List.length w). rewrite <- (all_slashes Hall).
    rewrite <- (string_of_list_ascii_of_string host_url) at 1.
    rewrite Hw at 1.
    apply string_of_list_ascii_app.
  - intros pre Heq. apply (f_equal list_ascii_of_string) in Heq.
    rewrite list_ascii_of_string_of_list_ascii, list_ascii_of_string_app
      in Heq. simpl in Heq.
    assert (Hne : rstrip_chars (Ascii.eqb "/")
                    (list_ascii_of_string host_url) <> []).
    { rewrite Heq. intros Hnil. apply app_eq_nil in Hnil.
      destruct Hnil; discriminate. }
    pose proof (rstrip_last (Ascii.eqb "/")
                  (list_ascii_of_string host_url) "/"%char Hne) as Hlast.
    rewrite Heq, last_last in Hlast. discriminate.
Qed.

(** ** ui.py: what the dialogs answer *)

Lemma py_index_mod (A : Type) (l : list A) (j : Z) :
  - len l <= j < len l ->
  py_index l j = nth_error l (Z.to_nat (j mod len l)).
Proof.
  intros Hj. unfold py_index.
  destruct (Z.ltb_spec j 0) as [Hneg|Hpos].
  - destruct (Z.ltb_spec (len l + j) 0); [lia|].
    replace (j mod len l) with (len l + j); [reflexivity|].
    rewrite <- (Z_mod_plus_full j 1 (len l)).
    rewrite Z.mod_small by lia. lia.
  - now rewrite Z.mod_small by lia.
Qed.

Lemma application_run_enter (n : Z) (pre rest : list key) :
  0 < n -> Forall moves_only pre ->
  forall idx, - n <= idx < n ->
  exists j,
    application_run n idx tt (pre ++ KeyEnter :: rest) = Ret j tt rest
    /\ - n <= j < n
    /\ j mod n = (idx + net_moves pre) mod n.
Proof.
  intros Hn Hpre. induction Hpre as [|k pre [Hk1 Hk2] _ IH]; intros idx Hidx.
  - exists idx. simpl. rewrite Z.add_0_r. auto.
  - destruct k; try congruence; simpl.
    + pose proof (Z.mod_pos_bound (idx - 1) n Hn).
      destruct (IH ((idx - 1) mod n) ltac:(lia)) as [j [Hrun [Hj Hmod]]].
      exists j. repeat split; try assumption; try lia.
      rewrite Hmod, Z.add_mod_idemp_l by lia. f_equal. lia.
    + pose proof (Z.mod_pos_bound (idx + 1) n Hn).
      destruct (IH ((idx + 1) mod n) ltac:(lia)) as [j [Hrun [Hj Hmod]]].
      exists j. repeat split; try assumption; try lia.
      rewrite Hmod, Z.add_mod_idemp_l by lia. f_equal. lia.
    + exact (IH idx Hidx).
    + exact (IH idx Hidx).
Qed.

Lemma application_run_ctrl_c (n : Z) (pre rest : list key) :
  Forall moves_only pre ->
  forall idx, application_run n idx tt (pre ++ KeyCtrlC :: rest)
              = SysExit 0 tt.
Proof.
  induction 1 as [|k pre [Hk1 Hk2] _ IH]; intros idx; [reflexivity|].
  destruct k; try congruence; simpl; apply IH.
Qed.

Lemma application_run_waiting (n : Z) (pre : list key) :
  Forall moves_only pre ->
  forall idx, application_run n idx tt pre = Waiting tt.
Proof.
  induction 1 as [|k pre [Hk1 Hk2] _ IH]; intros idx; [reflexivity|].
  destruct k; try congruence; simpl; apply IH.
Qed.

(** The choice Enter finds, for a dialog that starts on [start]. *)
Lemma dialog_choice (A : Type) (choices : list A) (start : Z)
    (pre rest : list key) :
  0 < len choices -> - len choices <= start < len choices ->
  Forall moves_only pre ->
  exists j choice,
    application_run (len choices) start tt (pre ++ KeyEnter :: rest)
    = Ret j tt rest
    /\ py_index choices j = Some choice
    /\ nth_error choices
         (Z.to_nat ((start + net_moves pre) mod len choices))
       = Some choice.
Proof.
  intros Hlen Hstart Hpre.
  destruct (@application_run_enter (len choices) pre rest Hlen Hpre
              start Hstart) as [j [Hrun [Hj Hmod]]].
  destruct (py_index_in_range choices Hj) as [choice [Hchoice _]].
  exists j, choice. repeat split; try assumption.
  rewrite <- Hmod, <- py_index_mod by exact Hj. exact Hchoice.
Qed.

(** The dialog of [select_match] where [HTML] accepts the text
    wherever the highlight goes. *)
Section SelectRun.
Variable html_ok : string -> bool.
Variable song_title : string.
Variable choices : list (option Match * string).
Hypothesis choices_some : 0 < len choices.
Hypothesis choices_render :
  forall idx, 0 <= idx < len choices ->
  html_ok (formatted_text song_title choices idx) = true.

Lemma select_run_enter (pre rest : list key) :
  Forall moves_only pre ->
  forall idx, - len choices <= idx < len choices ->
  exists j,
    select_run html_ok song_title choices idx tt (pre ++ KeyEnter :: rest)
    = Ret j tt rest
    /\ - len choices <= j < len choices
    /\ j mod len choices = (idx + net_moves pre) mod len choices.
Proof.
  set (n := len choices) in *.
  induction 1 as [|k pre [Hk1 Hk2] _ IH]; intros idx Hidx.
  - exists idx. simpl. rewrite Z.add_0_r. auto.
  - destruct k; try congruence; simpl; fold n.
    + pose proof (Z.mod_pos_bound (idx - 1) n choices_some).
      rewrite choices_render by assumption.
      destruct (IH ((idx - 1) mod n) ltac:(lia)) as [j [Hrun [Hj Hmod]]].
      exists j. repeat split; try assumption; try lia.
      rewrite Hmod, Z.add_mod_idemp_l by lia. f_equal. lia.
    + pose proof (Z.mod_pos_bound (idx + 1) n choices_some).
      rewrite choices_render by assumption.
      destruct (IH ((idx + 1) mod n) ltac:(lia)) as [j [Hrun [Hj Hmod]]].
      exists j. repeat split; try assumption; try lia.
      rewrite Hmod, Z.add_mod_idemp_l by lia. f_equal. lia.
    + exact (IH idx Hidx).
    + exact (IH idx Hidx).
Qed.

Lemma select_run_ctrl_c (pre rest : list key) :
  Forall moves_only pre ->
  forall idx, select_run html_ok song_title choices idx tt
                         (pre ++ KeyCtrlC :: rest)
              = SysExit 0 tt.
Proof.
  induction 1 as [|k pre [Hk1 Hk2] _ IH]; intros idx; [reflexivity|].
  destruct k; try congruence; simpl; try apply IH;
    rewrite choices_render
      by (apply Z.mod_pos_bound; exact choices_some);
    apply IH.
Qed.

Lemma select_run_waiting (pre : list key) :
  Forall moves_only pre ->
  forall idx, select_run html_ok song_title choices idx tt pre = Waiting tt.
Proof.
  induction 1 as [|k pre [Hk1 Hk2] _ IH]; intros idx; [reflexivity|].
  destruct k; try congruence; simpl; try apply IH;
    rewrite choices_render
      by (apply Z.mod_pos_bound; exact choices_some);
    apply IH.
Qed.

End SelectRun.

(** The answer of [select_match] by the index its dialog returns. *)
Lemma select_match_after_run (html_ok : string -> bool)
    (matches : list Match) (song_title : string) (keys rest : list key)
    (j : Z) :
  html_ok (formatted_text song_title (select_choices matches)
                          (len matches - 1)) = true ->
  select_run html_ok song_title (select_choices matches) (len matches - 1)
             tt keys
  = Ret j tt rest ->
  - (len matches + 2) <= j < len matches + 2 ->
  select_match html_ok matches song_title tt keys
  = Ret (answer_at matches (j mod (len matches + 2))) tt rest.
Proof.
  intros Hok Hrun Hj. unfold select_match, get_formatted_text, bind, HTML.
  rewrite Hok. unfold ret at 1. rewrite Hrun.
  pose proof (select_choices_length matches) as Hlen.
  assert (Hpos : 0 <= len matches) by (unfold len; lia).
  unfold subscript.
  rewrite py_index_mod by (rewrite Hlen; exact Hj). rewrite Hlen.
  set (idx := j mod (len matches + 2)).
  assert (Hidx : 0 <= idx < len matches + 2)
    by (apply Z.mod_pos_bound; lia).
  unfold answer_at, select_choices.
  destruct (Z.ltb_spec idx (len matches)) as [Hlt|Hge].
  - rewrite nth_error_app1
      by (rewrite length_map; unfold len in Hlt; lia).
    rewrite nth_error_map.
    destruct (nth_error matches (Z.to_nat idx)) as [m|] eqn:Hnth.
    + simpl. unfold ret.
      destruct (String.eqb (display_name m) "Go back"); reflexivity.
    + apply nth_error_None in Hnth. unfold len in Hlt. lia.
  - rewrite nth_error_app2
      by (rewrite length_map; unfold len in Hge; lia).
    rewrite length_map.
    assert (Hnone : nth_error matches (Z.to_nat idx) = None)
      by (apply nth_error_None; unfold len in Hge; lia).
    rewrite Hnone.
    destruct (Z.eqb_spec idx (len matches)) as [Heq|Hne].
    + replace (Z.to_nat idx - List.length matches)%nat with 0%nat
        by (unfold len in Heq; lia).
      reflexivity.
    + replace (Z.to_nat idx - List.length matches)%nat with 1%nat
        by (unfold len in *; lia).
      reflexivity.
Qed.

Lemma renders_choices (html_ok : string -> bool) (song_title : string)
    (matches : list Match) :
  renders html_ok song_title matches ->
  forall idx, 0 <= idx < len (select_choices matches) ->
  html_ok (formatted_text song_title (select_choices matches) idx) = true.
Proof.
  intros Hrenders idx Hidx. rewrite select_choices_length in Hidx.
  apply Hrenders. lia.
Qed.

(** The answer of [select_match] by the place of the highlight. *)
Lemma select_match_choice (html_ok : string -> bool)
    (matches : list Match) (song_title : string) (pre rest : list key) :
  renders html_ok song_title matches ->
  Forall moves_only pre ->
  select_match html_ok matches song_title tt (pre ++ KeyEnter :: rest)
  = Ret (answer_at matches
           ((len matches - 1 + net_moves pre) mod (len matches + 2)))
        tt rest.
Proof.
  intros Hrenders Hpre.
  pose proof (select_choices_length matches) as Hlen.
  assert (Hpos : 0 <= len matches) by (unfold len; lia).
  destruct (@select_run_enter html_ok song_title (select_choices matches)
              ltac:(lia) (renders_choices Hrenders) pre rest Hpre
              (len matches - 1) ltac:(lia))
    as [j [Hrun [Hj Hmod]]].
  rewrite Hlen in Hj, Hmod. rewrite <- Hmod.
  apply select_match_after_run; auto.
  apply Hrenders. lia.
Qed.

(** Enter alone. *)
Lemma select_match_enter (html_ok : string -> bool)
    (matches : list Match) (song_title : string) (rest : list key) :
  html_ok (formatted_text song_title (select_choices matches)
                          (len matches - 1)) = true ->
  select_match html_ok matches song_title tt (KeyEnter :: rest)
  = Ret (answer_at matches ((len matches - 1) mod (len matches + 2)))
        tt rest.
Proof.
  intros Hok.
  assert (Hpos : 0 <= len matches) by (unfold len; lia).
  apply select_match_after_run; [exact Hok|reflexivity|lia].
Qed.

(** The text that [HTML] refuses. *)
Lemma select_match_refused (html_ok : string -> bool)
    (matches : list Match) (song_title : string) (keys : list key) :
  html_ok (formatted_text song_title (select_choices matches)
                          (len matches - 1)) = false ->
  select_match html_ok matches song_title tt keys = Raise ExpatError tt.
Proof.
  intros Hbad. unfold select_match, get_formatted_text, bind, HTML.
  now rewrite Hbad.
Qed.

(** X10: [select_match] first hands its text, which holds the title of
    the song and the labels of the matches as they are, to [HTML], and
    raises [ExpatError] before it reads a key when [HTML] refuses the
    text.  Where [HTML] accepts the text wherever the highlight is,
    [select_match] answers by where the highlight is when Enter is
    pressed: it starts on the last match and every down and up moves
    it by one, cyclically over the matches followed by Skip and Go back;
    a match under the highlight is returned, Skip gives no match, Go
    back (or a match that is labelled ["Go back"]) gives the go-back
    signal; no answer carries both a match and the go-back signal. *)
Theorem select_match_answer (html_ok : string -> bool)
    (matches : list Match) (song_title : string) (pre rest : list key) :
  (renders html_ok song_title matches ->
   Forall moves_only pre ->
   select_match html_ok matches song_title tt (pre ++ KeyEnter :: rest)
   = Ret (answer_at matches
            ((len matches - 1 + net_moves pre) mod (len matches + 2)))
         tt rest)
  /\ (forall idx,
        fst (answer_at matches idx) = None
        \/ snd (answer_at matches idx) = false)
  /\ (html_ok (formatted_text song_title (select_choices matches)
                              (len matches - 1)) = false ->
      forall keys,
        select_match html_ok matches song_title tt keys
        = Raise ExpatError tt).
Proof.
  split; [|split].
  - intros Hrenders Hpre. now apply select_match_choice.
  - intros idx. unfold answer_at.
    destruct (nth_error matches (Z.to_nat idx)) as [m|].
    + destruct (String.eqb (display_name m) "Go back"); simpl; auto.
    + destruct (idx =? len matches); simpl; auto.
  - intros Hbad keys. now apply select_match_refused.
Qed.

(** X11: [confirm_action] starts on Yes and answers yes exactly when
    the downs and ups before Enter cancel out modulo two; Enter alone
    answers yes. *)
Theorem confirm_action_answer (pre rest : list key) :
  Forall moves_only pre ->
  confirm_action tt (pre ++ KeyEnter :: rest)
  = Ret (Z.even (net_moves pre)) tt rest.
Proof.
  intros Hpre. unfold confirm_action, bind.
  set (choices := [(true, "Yes"); (false, "No")]).
  destruct (@dialog_choice _ choices 0 pre rest
              ltac:(reflexivity) ltac:(unfold len; simpl; lia) Hpre)
    as [j [choice [-> [Hchoice Hnth]]]].
  unfold subscript. rewrite Hchoice. unfold ret. f_equal.
  change (len choices) with 2 in Hnth. simpl in Hnth.
  rewrite Zeven_mod.
  pose proof (Z.mod_pos_bound (net_moves pre) 2 ltac:(lia)) as Hb.
  destruct (Z.eqb_spec (net_moves pre mod 2) 0) as [Heq|Hne].
  - rewrite Heq in Hnth. inversion Hnth. reflexivity.
  - replace (net_moves pre mod 2) with 1 in Hnth by lia.
    inversion Hnth. reflexivity.
Qed.

(** X12: [confirm_break] starts on Take a break and answers by the
    downs minus ups before Enter, modulo three: take the break, skip
    it, or go back; it never answers both take and go back. *)
Theorem confirm_break_answer (pre rest : list key) :
  Forall moves_only pre ->
  confirm_break tt (pre ++ KeyEnter :: rest)
  = Ret (net_moves pre mod 3 =? 0, net_moves pre mod 3 =? 2) tt rest.
Proof.
  intros Hpre. unfold confirm_break, bind.
  set (choices := [(Some true, "Take a break");
                   (Some false, "Skip break"); (None, "Go back")]).
  destruct (@dialog_choice _ choices 0 pre rest
              ltac:(reflexivity) ltac:(unfold len; simpl; lia) Hpre)
    as [j [choice [-> [Hchoice Hnth]]]].
  unfold subscript. rewrite Hchoice. unfold ret.
  change (len choices) with 3 in Hnth. simpl in Hnth.
  pose proof (Z.mod_pos_bound (net_moves pre) 3 ltac:(lia)) as Hb.
  assert (Hcases : net_moves pre mod 3 = 0 \/ net_moves pre mod 3 = 1
                   \/ net_moves pre mod 3 = 2) by lia.
  destruct Hcases as [Heq|[Heq|Heq]]; rewrite Heq in *;
    inversion Hnth; subst; reflexivity.
Qed.

(** X13: a dialog that runs ends on Enter or Ctrl-C only: Ctrl-C
    before any Enter leaves the process with code 0, whatever was
    highlighted and whatever follows, and while neither has been typed
    the dialog waits.  The dialog of [select_match] runs where [HTML]
    accepts its text wherever the highlight is. *)
Theorem dialogs_end (html_ok : string -> bool) (matches : list Match)
    (song_title : string) (pre rest : list key) :
  Forall moves_only pre ->
  ((renders html_ok song_title matches ->
    select_match html_ok matches song_title tt (pre ++ KeyCtrlC :: rest)
    = SysExit 0 tt)
   /\ confirm_action tt (pre ++ KeyCtrlC :: rest) = SysExit 0 tt
   /\ confirm_break tt (pre ++ KeyCtrlC :: rest) = SysExit 0 tt)
  /\ ((renders html_ok song_title matches ->
       select_match html_ok matches song_title tt pre = Waiting tt)
      /\ confirm_action tt pre = Waiting tt
      /\ confirm_break tt pre = Waiting tt).
Proof.
  intros Hpre.
  pose proof (select_choices_length matches) as Hlen.
  assert (Hpos : 0 <= len matches) by (unfold len; lia).
  unfold confirm_action, confirm_break, bind.
  rewrite !application_run_ctrl_c, !application_run_waiting by exact Hpre.
  repeat split; intros Hrenders;
    unfold select_match, get_formatted_text, bind, HTML;
    rewrite (Hrenders (len matches - 1)) by lia; unfold ret at 1.
  - now rewrite (@select_run_ctrl_c html_ok song_title
                   (select_choices matches) ltac:(lia)
                   (renders_choices Hrenders) pre rest Hpre).
  - now rewrite (@select_run_waiting html_ok song_title
                   (select_choices matches) ltac:(lia)
                   (renders_choices Hrenders) pre Hpre).
Qed.

Lemma sorted_last_max (A : Type) (key : A -> Z) (l : list A) :
  StronglySorted (key_le key) l ->
  forall n m, nth_error l n = Some m -> S n = List.length l ->
  forall x, In x l -> key x <= key m.
Proof.
  induction 1 as [|a l Hs IH Ha]; intros n m Hnth Hlen x Hin;
    [contradiction|].
  destruct n as [|n]; simpl in *.
  - destruct l; [|discriminate]. inversion Hnth; subst.
    destruct Hin as [->|[]]. lia.
  - destruct Hin as [->|Hin].
    + rewrite Forall_forall in Ha. apply Ha.
      eapply nth_error_In; eauto.
    + apply (IH n m); auto.
Qed.

(** X14: Enter alone at the choices for a song takes a best match: when
    [select_match] is given the result of [find_matches] and answers
    Enter with a match, that match is one of those found, and no label
    of the catalog scores higher against the song than it does. *)
Theorem default_choice_is_best (ratio : string -> string -> Z)
    (html_ok : string -> bool)
    (input_song : InputSong) (available_songs : dict Song) (threshold : Z)
    (song_title : string)
    (rest rest' : list key) (m : Match) (go_back : bool) :
  select_match html_ok
               (find_matches ratio input_song available_songs threshold)
               song_title tt (KeyEnter :: rest)
  = Ret (Some m, go_back) tt rest' ->
  In m (find_matches ratio input_song available_songs threshold)
  /\ go_back = false /\ rest' = rest
  /\ forall label entry, In (label, entry) available_songs ->
       ratio (search_string input_song) label <= similarity m.
Proof.
  set (matches := find_matches ratio input_song available_songs threshold).
  intros Hselect.
  destruct (html_ok (formatted_text song_title (select_choices matches)
                                    (len matches - 1))) eqn:Hok.
  2: { rewrite select_match_refused in Hselect by exact Hok.
       discriminate. }
  rewrite select_match_enter in Hselect by exact Hok.
  assert (Hpos : 0 <= len matches) by (unfold len; lia).
  destruct (Z.eqb_spec (len matches) 0) as [Hzero|Hsome].
  { rewrite Hzero in Hselect. unfold answer_at in Hselect.
    assert (Hnil : matches = [])
      by (destruct matches; [reflexivity | unfold len in Hzero; simpl in Hzero; lia]).
    rewrite Hnil in Hselect. simpl in Hselect. discriminate. }
  rewrite Z.mod_small in Hselect by lia.
  unfold answer_at in Hselect.
  destruct (nth_error matches (Z.to_nat (len matches - 1))) as [last|]
    eqn:Hnth.
  2: { destruct (len matches - 1 =? len matches); discriminate. }
  destruct (String.eqb (display_name last) "Go back"); [discriminate|].
  inversion Hselect; subst last go_back rest'.
  assert (Hin : In m matches) by (eapply nth_error_In; eauto).
  repeat split; try assumption.
  intros label entry Hcat.
  assert (Hsorted : StronglySorted (key_le similarity) matches).
  { unfold matches. rewrite find_matches_eq. apply sorted_StronglySorted. }
  assert (Hmax : forall x, In x matches -> similarity x <= similarity m).
  { apply (sorted_last_max Hsorted Hnth). unfold len in *. lia. }
  destruct (Z.le_gt_cases threshold (ratio (search_string input_song) label))
    as [Hkeep|Hdrop].
  - apply (Hmax (as_match ratio (search_string input_song) (label, entry))).
    apply find_matches_In. exists (label, entry). auto.
  - apply find_matches_In in Hin.
    destruct Hin as [item [_ [Hk ->]]]. simpl. lia.
Qed.

(** ** __main__.py: what the loop keeps and where it ends *)

Section SessionFacts.
Variable ratio : string -> string -> Z.
Variable urljoin : string -> string -> string.
Variable html_ok : string -> bool.
Variable host_url : string.
Variable break_url : option string.
Variable available_songs : dict Song.
Variable input_songs : list Entry.

Local Abbreviation body := (loop_body ratio urljoin html_ok host_url
                                      break_url available_songs input_songs).
Local Abbreviation loop := (main_loop ratio urljoin html_ok host_url
                                      break_url available_songs input_songs).
Local Abbreviation trace := (visited ratio urljoin html_ok host_url
                                     break_url available_songs input_songs).
Local Abbreviation good := (record_ok ratio break_url available_songs
                                      input_songs).
Local Abbreviation url_of := (record_url urljoin host_url break_url).

(** What an iteration that returns to the loop condition has appended,
    if anything. *)
Lemma loop_body_record (st st' : state) (keys rest : list key) :
  0 <= i st < len input_songs ->
  body st keys = Ret tt st' rest ->
  (selected_songs st' = selected_songs st /\ opened st' = opened st)
  \/ exists r,
       good r
       /\ selected_songs st' = selected_songs st ++ [r]
       /\ opened st' = opened st ++ [url_of r].
Proof.
  intros Hi. unfold loop_body, bind, get.
  destruct (@py_index_in_range _ input_songs (i st) ltac:(lia))
    as [entry [Hentry Hmember]].
  unfold subscript at 1. rewrite Hentry. unfold ret at 1.
  destruct entry as [entry|].
  - pose proof (input_or_cancel_spec ratio urljoin html_ok host_url
                  st keys) as Hin.
    destruct (input_or_cancel st keys) as [[] st1 keys1| | |];
      try discriminate.
    destruct Hin as [-> _].
    destruct (find_matches ratio entry available_songs default_threshold)
      as [|m ms] eqn:Hmatches.
    + unfold call. destruct (confirm_action tt keys1)
        as [skip [] keys2| | |]; try discriminate.
      destruct skip; simpl; [|discriminate].
      intros H. inversion H; subst. left. auto.
    + pose proof (select_match_spec html_ok (m :: ms)
                    (title entry ++ " - " ++ artist entry) keys1) as Hs.
      unfold call. destruct (select_match html_ok (m :: ms) _ tt keys1)
        as [[selected go_back] [] keys2| | |]; try discriminate.
      simpl in Hs. unfold on_select. destruct go_back; simpl.
      * intros H. inversion H; subst. left. auto.
      * destruct selected as [chosen|]; simpl.
        -- intros H. inversion H; subst. right.
           exists ("song", Some chosen).
           split; [|split; reflexivity].
           right. exists entry, chosen. rewrite Hmatches.
           destruct Hs as [[Hchosen _] _]. repeat split; auto.
        -- intros H. inversion H; subst. left. auto.
  - destruct (truthy break_url) eqn:Hurl; simpl.
    + unfold call. destruct (confirm_break tt keys)
        as [[take_break go_back] [] keys1| | |]; try discriminate.
      unfold on_break. destruct go_back; simpl.
      * intros H. inversion H; subst. left. auto.
      * destruct take_break; simpl.
        -- unfold bind, modify.
           pose proof (input_or_cancel_spec ratio urljoin html_ok host_url
                         (webbrowser_open (urljoin host_url (str break_url))
                            (append_selected ("break", None) st)) keys1)
             as Hin.
           destruct (input_or_cancel _ keys1) as [[] st2 keys2| | |];
             try discriminate.
           destruct Hin as [-> _]. simpl.
           intros H. inversion H; subst. right.
           exists ("break", None).
           split; [|split; reflexivity]. left. auto.
        -- intros H. inversion H; subst. left. auto.
    + intros H. inversion H; subst. left. auto.
Qed.

(** A property of the state that every iteration keeps holds wherever
    the loop condition is evaluated, and where the loop ends; there the
    cursor is not below the length of the setlist. *)
Lemma loop_keeps (P : state -> Prop) :
  (forall st keys st' rest,
     0 <= i st < len input_songs -> P st ->
     body st keys = Ret tt st' rest -> P st') ->
  (forall n st keys, 0 <= i st -> P st ->
   forall st', In st' (trace n st keys) -> P st')
  /\ (forall fuel st keys st' rest, 0 <= i st -> P st ->
      loop fuel st keys = Some (Ret tt st' rest) ->
      P st' /\ len input_songs <= i st').
Proof.
  intros Hstep. split.
  - induction n as [|n IH]; intros st keys Hst HP st' Hin.
    + simpl in Hin. destruct Hin as [<-|[]]. exact HP.
    + rewrite visited_step in Hin. destruct Hin as [<-|Hin]; [exact HP|].
      destruct (Z.ltb_spec (i st) (len input_songs)) as [Hlt|]; [|easy].
      pose proof (@loop_body_spec ratio urljoin html_ok host_url break_url
                    available_songs input_songs st keys ltac:(lia))
        as Hspec.
      destruct (body st keys) as [[] st1 rest| | |] eqn:Hbody; try easy.
      apply (IH st1 rest); [lia| |exact Hin].
      apply (Hstep st keys st1 rest); auto; lia.
  - induction fuel as [|fuel IH]; intros st keys st' rest Hst HP Hrun;
      simpl in Hrun; [discriminate|].
    destruct (Z.ltb_spec (i st) (len input_songs)) as [Hlt|Hge].
    + pose proof (@loop_body_spec ratio urljoin html_ok host_url break_url
                    available_songs input_songs st keys ltac:(lia))
        as Hspec.
      destruct (body st keys) as [[] st1 keys1| | |] eqn:Hbody;
        try discriminate.
      apply (IH st1 keys1 st' rest); [lia| |exact Hrun].
      apply (Hstep st keys st1 keys1); auto; lia.
    + inversion Hrun; subst. auto.
Qed.

Lemma records_kept (st : state) (keys : list key) (st' : state)
    (rest : list key) :
  0 <= i st < len input_songs ->
  Forall good (selected_songs st)
  /\ opened st = map url_of (selected_songs st) ->
  body st keys = Ret tt st' rest ->
  Forall good (selected_songs st')
  /\ opened st' = map url_of (selected_songs st').
Proof.
  intros Hi [Hgood Hopened] Hbody.
  destruct (@loop_body_record st st' keys rest Hi Hbody)
    as [[-> ->]|[r [Hr [-> ->]]]]; [auto|].
  split.
  - apply Forall_app. auto.
  - rewrite map_app, Hopened. reflexivity.
Qed.

(** X15: whatever the operator types, every record of the outcome list
    is a break, and then a break destination is configured, or a match
    that [find_matches] gave for a song of the setlist; this holds
    wherever the loop condition is evaluated and where the loop ends.
    Without a break destination the list holds matches only. *)
Theorem records_come_from_the_catalog (n fuel : nat) (keys rest : list key)
    (st : state) :
  In st (trace n initial keys)
  \/ loop fuel initial keys = Some (Ret tt st rest) ->
  Forall good (selected_songs st)
  /\ (truthy break_url = false ->
      forall r, In r (selected_songs st) ->
      exists m, r = ("song", Some m)
                /\ In (display_name m, song m) available_songs
                /\ similarity m >= default_threshold).
Proof.
  intros Hreach.
  assert (Hinv : Forall good (selected_songs st)
                 /\ opened st = map url_of (selected_songs st)).
  { destruct (loop_keeps
                (fun st => Forall good (selected_songs st)
                           /\ opened st = map url_of (selected_songs st))
                records_kept) as [Htrace Hloop].
    assert (H0 : 0 <= i initial) by (simpl; lia).
    assert (Hinit : Forall good (selected_songs initial)
                    /\ opened initial = map url_of (selected_songs initial))
      by (simpl; auto).
    destruct Hreach as [Hin|Hrun].
    - exact (Htrace n initial keys H0 Hinit st Hin).
    - exact (proj1 (Hloop fuel initial keys st rest H0 Hinit Hrun)). }
  destruct Hinv as [Hgood _]. split; [exact Hgood|].
  intros Hurl r Hin. rewrite Forall_forall in Hgood.
  destruct (Hgood r Hin) as [[_ Hbreak]|[entry [m [_ [Hm ->]]]]];
    [congruence|].
  exists m. split; [reflexivity|].
  apply find_matches_In in Hm. destruct Hm as [[k v] [Hcat [Hk ->]]].
  simpl in *. split; [exact Hcat | lia].
Qed.

(** X16: the pages the loop has opened are the pages of its records, one
    for each record and in the order of the list: the page of the match
    for a song, the break page for a break. *)
Theorem opened_mirrors_records (n fuel : nat) (keys rest : list key)
    (st : state) :
  In st (trace n initial keys)
  \/ loop fuel initial keys = Some (Ret tt st rest) ->
  opened st = map url_of (selected_songs st).
Proof.
  intros Hreach.
  destruct (loop_keeps
              (fun st => Forall good (selected_songs st)
                         /\ opened st = map url_of (selected_songs st))
              records_kept) as [Htrace Hloop].
  assert (H0 : 0 <= i initial) by (simpl; lia).
  assert (Hinit : Forall good (selected_songs initial)
                  /\ opened initial = map url_of (selected_songs initial))
    by (simpl; auto).
  destruct Hreach as [Hin|Hrun].
  - exact (proj2 (Htrace n initial keys H0 Hinit st Hin)).
  - exact (proj2 (proj1 (Hloop fuel initial keys st rest H0 Hinit Hrun))).
Qed.

(** X17: when the loop ends, the cursor is the length of the setlist,
    not beyond it, and the keys left are keys the operator typed; before
    that the cursor is never beyond the length. *)
Theorem loop_ends_at_length (n fuel : nat) (keys rest : list key)
    (st : state) :
  (In st (trace n initial keys) -> 0 <= i st <= len input_songs)
  /\ (loop fuel initial keys = Some (Ret tt st rest) ->
      i st = len input_songs).
Proof.
  assert (Hstep : forall s ks s' r,
             0 <= i s < len input_songs ->
             0 <= i s <= len input_songs ->
             body s ks = Ret tt s' r -> 0 <= i s' <= len input_songs).
  { intros s ks s' r Hi _ Hbody.
    pose proof (@loop_body_spec ratio urljoin html_ok host_url break_url
                  available_songs input_songs s ks Hi) as Hspec.
    rewrite Hbody in Hspec. lia. }
  destruct (loop_keeps (fun s => 0 <= i s <= len input_songs) Hstep)
    as [Htrace Hloop].
  assert (H0 : 0 <= i initial) by (simpl; lia).
  assert (Hinit : 0 <= i initial <= len input_songs)
    by (unfold len; simpl; lia).
  split.
  - intros Hin. exact (Htrace n initial keys H0 Hinit st Hin).
  - intros Hrun.
    destruct (Hloop fuel initial keys st rest H0 Hinit Hrun). lia.
Qed.

Lemma main_loop_step (fuel : nat) (st : state) (keys : list key) :
  loop (S fuel) st keys
  = if i st <? len input_songs
    then match body st keys with
         | Ret _ st' rest => loop fuel st' rest
         | r => Some r
         end
    else Some (Ret tt st keys).
Proof. reflexivity. Qed.

Lemma inert_breaks_from (k : nat) :
  truthy break_url = false ->
  Forall (fun entry => entry = EntryBreak) input_songs ->
  forall st keys,
    0 <= i st <= len input_songs ->
    Z.to_nat (len input_songs - i st) = k ->
    loop (S k) st keys = Some (Ret tt (set_i (len input_songs) st) keys).
Proof.
  intros Hurl Hall. induction k as [|k IH]; intros st keys Hi Hk.
  - simpl. destruct (Z.ltb_spec (i st) (len input_songs)); [lia|].
    replace (len input_songs) with (i st) by lia.
    destruct st. reflexivity.
  - rewrite main_loop_step.
    destruct (Z.ltb_spec (i st) (len input_songs)); [|lia].
    destruct (@py_index_in_range _ input_songs (i st) ltac:(lia))
      as [entry [Hentry Hmember]].
    rewrite Forall_forall in Hall. rewrite (Hall entry Hmember) in Hentry.
    rewrite (@loop_body_inert_break ratio urljoin html_ok host_url break_url
               available_songs input_songs st keys Hurl Hentry).
    rewrite IH by (simpl; lia).
    destruct st. reflexivity.
Qed.

(** X18: without a break destination, a setlist of breaks only runs to
    its end on its own: no key is read, nothing is recorded or opened,
    whatever the operator has typed. *)
Theorem breaks_only_setlist (keys : list key) :
  truthy break_url = false ->
  Forall (fun entry => entry = EntryBreak) input_songs ->
  loop (S (List.length input_songs)) initial keys
  = Some (Ret tt (mkState (len input_songs) [] []) keys).
Proof.
  intros Hurl Hall.
  rewrite (@inert_breaks_from (List.length input_songs) Hurl Hall
             initial keys).
  - reflexivity.
  - unfold len. simpl. lia.
  - unfold len. simpl. lia.
Qed.

(** X19: the loop cannot go round for ever on what has been typed: with
    [k] keys typed and a setlist of [l] items it ends, waits for the
    operator, exits or raises within [k * (l + 1) + l + 1]
    iterations. *)
Theorem loop_reaches_a_verdict (keys : list key) :
  exists r,
    loop (S (List.length keys * S (List.length input_songs)
             + List.length input_songs)) initial keys
    = Some r.
Proof.
  exact (@main_loop_total ratio urljoin html_ok host_url break_url
           available_songs input_songs
           (S (List.length keys * S (List.length input_songs)
               + List.length input_songs))
           initial keys ltac:(simpl; lia)
           ltac:(unfold len; simpl; lia)).
Qed.

Local Abbreviation before_loop := (open_initial urljoin host_url break_url).
Local Abbreviation after_loop := (final_break urljoin host_url break_url).
Local Abbreviation break_page :=
  (if truthy break_url then [urljoin host_url (str break_url)] else []).

Lemma open_initial_spec (st st1 : state) (keys keys1 : list key) :
  before_loop st keys = Ret tt st1 keys1 ->
  i st1 = i st /\ selected_songs st1 = selected_songs st
  /\ exists yes : bool,
       opened st1
       = opened st
         ++ (if yes then break_page ++ [urljoin host_url "/songbook/"]
             else []).
Proof.
  unfold open_initial, bind, call.
  destruct (confirm_action tt keys) as [yes [] keys0| | |];
    try discriminate.
  destruct yes.
  - pose proof (input_or_cancel_spec ratio urljoin html_ok host_url) as Hin.
    destruct (truthy break_url); unfold modify, ret;
      match goal with
      | |- context [input_or_cancel ?s ?k] =>
          specialize (Hin s k); destruct (input_or_cancel s k)
            as [[] st2 keys2| | |]; try discriminate
      end;
      destruct Hin as [-> _]; intros H; inversion H; subst; simpl;
      (repeat split; exists true; rewrite <- ?app_assoc; reflexivity).
  - unfold ret. intros H. inversion H; subst.
    repeat split. exists false. now rewrite app_nil_r.
Qed.

Lemma final_break_spec (st st' : state) (keys rest : list key) :
  after_loop st keys = Ret tt st' rest ->
  i st' = i st /\ selected_songs st' = selected_songs st
  /\ opened st' = opened st ++ break_page.
Proof.
  unfold final_break.
  destruct (truthy break_url).
  - unfold bind, modify.
    pose proof (input_or_cancel_spec ratio urljoin html_ok host_url
                  st keys) as Hin.
    destruct (input_or_cancel st keys) as [[] st2 keys2| | |];
      try discriminate.
    destruct Hin as [-> _]. intros H. inversion H; subst. simpl. auto.
  - unfold ret. intros H. inversion H; subst.
    repeat split. now rewrite app_nil_r.
Qed.


End SessionFacts.

(** ** matcher.py: the threshold *)

Section ThresholdFacts.
Variable A : Type.
Variable key : A -> Z.
Variable p : A -> bool.

Lemma insert_by_front (x : A) (l : list A) :
  Forall (fun y => key x <= key y) l -> insert_by key x l = x :: l.
Proof.
  destruct 1 as [|y l Hy _]; simpl; [reflexivity|].
  destruct (Z.leb_spec (key x) (key y)); [reflexivity | lia].
Qed.

Lemma filter_insert_by (x : A) (l : list A) :
  StronglySorted (key_le key) l ->
  filter p (insert_by key x l)
  = if p x then insert_by key x (filter p l) else filter p l.
Proof.
  induction 1 as [|y l Hs IH Hy]; simpl.
  - destruct (p x); reflexivity.
  - destruct (Z.leb_spec (key x) (key y)) as [Hle|Hgt].
    + assert (Hall : Forall (fun z => key x <= key z) (y :: l)).
      { constructor; [exact Hle|].
        eapply Forall_impl; [|exact Hy]. unfold key_le. intros; lia. }
      assert (Hkept : Forall (fun z => key x <= key z) (filter p (y :: l))).
      { apply Forall_forall. intros z Hz. apply filter_In in Hz.
        rewrite Forall_forall in Hall. apply Hall. tauto. }
      simpl in Hkept |- *. destruct (p x) eqn:Hx; [|reflexivity].
      now rewrite insert_by_front by exact Hkept.
    + simpl. rewrite IH. destruct (p y) eqn:Hpy; destruct (p x); simpl;
        try reflexivity.
      destruct (Z.leb_spec (key x) (key y)); [lia | reflexivity].
Qed.

Lemma filter_sorted (l : list A) :
  filter p (sorted key l) = sorted key (filter p l).
Proof.
  induction l as [|x l IH]; [reflexivity|].
  simpl. rewrite filter_insert_by by apply sorted_StronglySorted.
  rewrite IH. destruct (p x); reflexivity.
Qed.

End ThresholdFacts.

Lemma filter_map_filter (X Y : Type) (f : X -> Y) (q : Y -> bool)
    (p1 p2 : X -> bool) (l : list X) :
  (forall x, p2 x = p1 x && q (f x)) ->
  map f (filter p2 l) = filter q (map f (filter p1 l)).
Proof.
  intros Hp. induction l as [|x l IH]; [reflexivity|].
  simpl. rewrite Hp. destruct (p1 x); simpl; [|exact IH].
  destruct (q (f x)); simpl; now rewrite IH.
Qed.

(** X21: raising the threshold only removes matches: the matches at a
    higher threshold are the matches at the lower one that reach it, in
    the same order. *)
Theorem find_matches_raise_threshold (ratio : string -> string -> Z)
    (input_song : InputSong) (available_songs : dict Song)
    (low high : Z) :
  low <= high ->
  find_matches ratio input_song available_songs high
  = filter (fun m => similarity m >=? high)
           (find_matches ratio input_song available_songs low).
Proof.
  intros Hle. rewrite !find_matches_eq, filter_sorted. f_equal.
  apply filter_map_filter. intros item. unfold scores_at_least. simpl.
  destruct (Z.geb_spec (ratio (search_string input_song) (fst item)) high);
    destruct (Z.geb_spec (ratio (search_string input_song) (fst item)) low);
    simpl; try reflexivity; lia.
Qed.
(** ** The properties on the scenario *)

Import Scenario.

Example ties_keep_catalog_order :
  map display_name (find_matches Fuzz.ratio song_t tied default_threshold)
  = ["ab - d"; "ab - e"; "ab - c"]
  /\ map similarity (find_matches Fuzz.ratio song_t tied default_threshold)
     = [83; 83; 100].
Proof. vm_compute. split; reflexivity. Qed.

(** A break that is taken is recorded and opened before the pause that
    follows it; the cursor moves once the pause is over. *)
Example taken_break_pause :
  run break_page only_break 1 [KeyEnter]
  = Some (Waiting (mkState 0 [("break", None)] ["http://uke/break"]))
  /\ run break_page only_break 2 [KeyEnter; KeyEnter]
     = Some (Ret tt (mkState 1 [("break", None)] ["http://uke/break"]) []).
Proof. vm_compute. split; reflexivity. Qed.

Lemma catalog_wf : dict_wf catalog.
Proof.
  unfold dict_wf, catalog. simpl.
  repeat constructor; simpl; intuition discriminate.
Defined.

Lemma find_matches_threshold_witness :
  In match_a (find_matches Fuzz.ratio song_a catalog 60)
  /\ In ("Bb - Yy (1)", mkSong "Bb" "Yy" "/songbook/b") catalog
  /\ Fuzz.ratio (search_string song_a) "Bb - Yy (1)" < 60
  /\ similarity match_a >= 60
  /\ display_name match_a <> "Bb - Yy (1)".
Proof.
  assert (Hin : In match_a (find_matches Fuzz.ratio song_a catalog 60))
    by (vm_compute; auto).
  assert (Hcat : In ("Bb - Yy (1)", mkSong "Bb" "Yy" "/songbook/b") catalog)
    by (vm_compute; auto).
  assert (Hlow : Fuzz.ratio (search_string song_a) "Bb - Yy (1)" < 60)
    by (vm_compute; reflexivity).
  destruct (find_matches_threshold Fuzz.ratio song_a catalog 60)
    as [Hthreshold Hbelow].
  exact (conj Hin (conj Hcat (conj Hlow
           (conj (Hthreshold match_a Hin)
                 (Hbelow _ _ Hcat Hlow match_a Hin))))).
Defined.

Lemma find_matches_from_catalog_witness :
  dict_wf catalog
  /\ In match_a (find_matches Fuzz.ratio song_a catalog 60)
  /\ dict_get catalog (display_name match_a) = Some (song match_a)
  /\ (List.length (find_matches Fuzz.ratio song_a catalog 60)
      <= List.length catalog)%nat.
Proof.
  assert (Hin : In match_a (find_matches Fuzz.ratio song_a catalog 60))
    by (vm_compute; auto).
  destruct (find_matches_from_catalog Fuzz.ratio song_a 60 catalog_wf)
    as [Hdrawn [_ Hlen]].
  exact (conj catalog_wf (conj Hin
           (conj (proj2 (Hdrawn match_a Hin)) Hlen))).
Defined.

Lemma similarity_is_edit_ratio_witness :
  In match_a (find_matches Fuzz.ratio song_a catalog 60)
  /\ similarity match_a = Fuzz.ratio "Aa - Xx" "Aa - Xx (0)"
  /\ 0 <= similarity match_a <= 100.
Proof.
  assert (Hin : In match_a (find_matches Fuzz.ratio song_a catalog 60))
    by (vm_compute; auto).
  split; [assumption|].
  exact (proj1 (similarity_is_edit_ratio song_a catalog 60) match_a Hin).
Defined.

Lemma cursor_never_negative_witness :
  advances (states None three_songs 3 three_go_backs) = 0%nat
  /\ In initial (states None three_songs 3 three_go_backs)
  /\ i initial = 0
  /\ run None three_songs 4 three_go_backs = Some (Waiting initial)
  /\ 0 <= i (state_of (Waiting (A := unit) initial)).
Proof.
  assert (Hadv : advances (states None three_songs 3 three_go_backs) = 0%nat)
    by (vm_compute; reflexivity).
  assert (Hin : In initial (states None three_songs 3 three_go_backs))
    by (vm_compute; auto).
  assert (Hrun : run None three_songs 4 three_go_backs
                 = Some (Waiting initial))
    by (vm_compute; reflexivity).
  destruct (cursor_never_negative Fuzz.ratio urljoin html_ok host_url None
              catalog three_songs 3 4 three_go_backs)
    as [_ [Hresult [Hfloor _]]].
  exact (conj Hadv (conj Hin (conj (Hfloor Hadv initial Hin)
           (conj Hrun (Hresult _ Hrun))))).
Defined.



(** C1, as the claim has it, fails: the operator picks at index 0 and
    at index 1, goes back at index 2, picks at index 1 again and at
    index 2.  The run ends with four records, the first record of
    index 1 among them, and not with the three the claim promises. *)
Lemma go_back_discards_record_counterexample :
  exists st,
    run None three_songs 6 rewind_keys = Some (Ret tt st [])
    /\ selected_songs st
       = [record match_a; record match_b; record match_b; record match_c]
    /\ selected_songs st <> [record match_a; record match_b; record match_c].
Proof.
  eexists. split; [vm_compute; reflexivity|]. simpl.
  split; [reflexivity | discriminate].
Qed.

Lemma go_back_keeps_records_witness :
  0 <= i initial
  /\ In (mkState 1 [record match_a; record match_b]
                 ["http://uke/songbook/a"; "http://uke/songbook/b"])
        (states None three_songs 3 rewind_keys)
  /\ exists more,
       [record match_a; record match_b] = selected_songs initial ++ more.
Proof.
  assert (H0 : 0 <= i initial) by (simpl; lia).
  assert (Hin : In (mkState 1 [record match_a; record match_b]
                      ["http://uke/songbook/a"; "http://uke/songbook/b"])
                   (states None three_songs 3 rewind_keys))
    by (vm_compute; auto).
  exact (conj H0 (conj Hin
           (proj1 (proj2 (go_back_keeps_records Fuzz.ratio urljoin html_ok
                            host_url None catalog three_songs 3
                            rewind_keys))
                  initial _ H0 Hin))).
Defined.

(** C2: with no break destination and the setlist of a song, a break
    and a song, the operator picks at index 0 and goes back at index 2.
    The cursor visits 0, 1, 2, 1 and is at 2 again when the loop next
    waits for the operator, at the announcement of the song of index 2
    and, after Enter, at its choices; the song of index 0 is not
    presented again, and a pick then ends the run. *)
Theorem go_back_after_inert_break_stays :
  map i (states None with_break 4 (pick ++ go_back)) = [0; 1; 2; 1; 2]
  /\ run None with_break 5 (pick ++ go_back)
     = Some (Waiting (mkState 2 [record match_a] ["http://uke/songbook/a"]))
  /\ run None with_break 5 (pick ++ go_back ++ [KeyEnter])
     = Some (Waiting (mkState 2 [record match_a] ["http://uke/songbook/a"]))
  /\ run None with_break 6 (pick ++ go_back ++ pick)
     = Some (Ret tt (mkState 3 [record match_a; record match_b]
                       ["http://uke/songbook/a"; "http://uke/songbook/b"])
                 []).
Proof. vm_compute. repeat split; reflexivity. Qed.


(** C8, as the claim has it, fails: Ctrl-C at the announcement of a
    song that has matches ends the whole run, with code 0; the
    operator has refused nothing, and the item has no outcome.  So do,
    with an exception that nothing catches, Ctrl-D at that
    announcement and an ampersand in the title of a song that has a
    match. *)
Lemma abort_without_refusal_counterexample :
  find_matches Fuzz.ratio song_a catalog default_threshold <> []
  /\ run None three_songs 1 [KeyCtrlC] = Some (SysExit 0 initial)
  /\ run None three_songs 1 [KeyCtrlD] = Some (Raise EOFError initial)
  /\ find_matches Fuzz.ratio song_r catalog_r default_threshold <> []
  /\ main_loop Fuzz.ratio urljoin html_ok host_url None catalog_r
               [EntrySong song_r] 1 initial [KeyEnter; KeyEnter]
     = Some (Raise ExpatError initial).
Proof. vm_compute. repeat split; discriminate. Qed.

Lemma decline_is_the_only_abort_witness :
  0 <= i initial
  /\ find_matches Fuzz.ratio song_q catalog default_threshold = []
  /\ confirm_action tt ([KeyDown; KeyEnter] ++ pick) = Ret false tt pick
  /\ run None unknown_first 1 (decline ++ pick) = Some (SysExit 1 initial)
  /\ ((1 = 0 /\ In KeyCtrlC (decline ++ pick))
      \/ (1 = 1
          /\ exists n keys0 entry keys1 keys2,
               reached Fuzz.ratio urljoin html_ok host_url None catalog
                       unknown_first n initial (decline ++ pick)
               = Some (initial, keys0)
               /\ py_index unknown_first (i initial)
                  = Some (EntrySong entry)
               /\ find_matches Fuzz.ratio entry catalog default_threshold
                  = []
               /\ input tt keys0 = Ret tt tt keys1
               /\ confirm_action tt keys1 = Ret false tt keys2)).
Proof.
  assert (H0 : 0 <= i initial) by (simpl; lia).
  assert (Hnone : find_matches Fuzz.ratio song_q catalog default_threshold
                  = [])
    by (vm_compute; reflexivity).
  assert (Hno : confirm_action tt ([KeyDown; KeyEnter] ++ pick)
                = Ret false tt pick)
    by (vm_compute; reflexivity).
  destruct (@decline_is_the_only_abort Fuzz.ratio urljoin html_ok host_url
              None catalog unknown_first 0 initial (decline ++ pick) H0)
    as [Habort _].
  assert (Hrun : run None unknown_first 1 (decline ++ pick)
                 = Some (SysExit 1 initial)).
  { apply (Habort song_q ([KeyDown; KeyEnter] ++ pick) pick);
      try assumption; try reflexivity. }
  exact (conj H0 (conj Hnone (conj Hno (conj Hrun
           (proj1 (proj2 (@decline_is_the_only_abort Fuzz.ratio urljoin
                            html_ok host_url None catalog unknown_first 1
                            initial (decline ++ pick) H0))
                  _ _ Hrun))))).
Defined.

(** ** The further properties on concrete inputs *)

Lemma short_line_whole : whole_lines Fixtures.short_line.
Proof.
  right.
  exists (String.append "Help" (String tab (String.append "Beatles"
            (String tab "77")))).
  reflexivity.
Defined.

Lemma empty_line_whole : whole_lines (String line_feed "").
Proof. right. exists "". reflexivity. Defined.


Lemma read_input_list_blank_line_witness :
  whole_lines Fixtures.short_line
  /\ whole_lines (String line_feed "")
  /\ blank (String line_feed "")
  /\ read_input_list
       (Text (Fixtures.short_line ++ String line_feed ""
                ++ format_line Fixtures.yesterday))
     = read_input_list
         (Text (Fixtures.short_line ++ format_line Fixtures.yesterday)).
Proof.
  assert (Hblank : blank (String line_feed "")) by (repeat constructor).
  exact (conj short_line_whole (conj empty_line_whole (conj Hblank
           (proj1 (@read_input_list_blank_line Fixtures.short_line
                     (String line_feed "")
                     (format_line Fixtures.yesterday)
                     short_line_whole empty_line_whole Hblank))))).
Defined.

Lemma yesterday_writable : writable Fixtures.yesterday.
Proof.
  unfold writable, clean_field, no_line_break. simpl.
  repeat split; try reflexivity; try discriminate;
    intros H; simpl in H; intuition discriminate.
Defined.

Lemma read_input_list_round_trip_witness :
  Forall writable [Fixtures.yesterday; Fixtures.hey_jude]
  /\ read_input_list
       (Text (written [Fixtures.yesterday; Fixtures.hey_jude]))
     = inr [EntrySong Fixtures.yesterday; EntrySong Fixtures.hey_jude].
Proof.
  assert (Hjude : writable Fixtures.hey_jude).
  { unfold writable, clean_field, no_line_break. simpl.
    repeat split; try reflexivity; try discriminate;
      intros H; simpl in H; intuition discriminate. }
  assert (Hall : Forall writable [Fixtures.yesterday; Fixtures.hey_jude])
    by (constructor; [exact yesterday_writable
                     | constructor; [exact Hjude | constructor]]).
  exact (conj Hall (@read_input_list_round_trip _ Hall)).
Defined.

Lemma read_input_list_clean_witness :
  read_input_list (Text Fixtures.setlist_text)
  = inr [EntrySong Fixtures.yesterday; EntryBreak;
         EntrySong Fixtures.hey_jude]
  /\ clean_field (title Fixtures.hey_jude)
  /\ title Fixtures.hey_jude <> "Break".
Proof.
  assert (Hread : read_input_list (Text Fixtures.setlist_text)
                  = inr [EntrySong Fixtures.yesterday; EntryBreak;
                         EntrySong Fixtures.hey_jude])
    by (vm_compute; reflexivity).
  assert (Hin : In (EntrySong Fixtures.hey_jude)
                   [EntrySong Fixtures.yesterday; EntryBreak;
                    EntrySong Fixtures.hey_jude])
    by (simpl; auto).
  destruct (@read_input_list_clean (Text Fixtures.setlist_text) _
              Fixtures.hey_jude Hread Hin)
    as [Htitle [_ [_ [_ [_ Hbreak]]]]].
  exact (conj Hread (conj Htitle Hbreak)).
Defined.

Lemma read_line_break_title_witness :
  title Fixtures.break_song = "Break"
  /\ read_line [] (format_line Fixtures.break_song) = inr [EntryBreak].
Proof.
  exact (conj eq_refl
           (proj2 (read_line_break_title [] "" Fixtures.break_song)
                  eq_refl)).
Defined.

Lemma read_line_field_count_witness :
  str_strip Fixtures.short_line <> ""
  /\ first_field Fixtures.short_line <> "Break"
  /\ (tabs (str_strip Fixtures.short_line) < 3)%nat
  /\ read_line [EntryBreak] Fixtures.short_line = inr [EntryBreak].
Proof.
  assert (Hne : str_strip Fixtures.short_line <> "")
    by (vm_compute; discriminate).
  assert (Hfirst : first_field Fixtures.short_line <> "Break")
    by (vm_compute; discriminate).
  assert (Htabs : (tabs (str_strip Fixtures.short_line) < 3)%nat)
    by (vm_compute; lia).
  exact (conj Hne (conj Hfirst (conj Htabs
           (proj1 (@read_line_field_count [EntryBreak] Fixtures.short_line
                     Hne Hfirst) Htabs)))).
Defined.

Lemma fetch_songs_items_witness :
  _logged_in (mkClient "http://uke" true) = true
  /\ fetch_songs (mkClient "http://uke" true) (Some (Some Fixtures.links))
     = inr (link_items 0 Fixtures.links)
  /\ dict_get (link_items 0 Fixtures.links) "Yesterday - Beatles (1)"
     = Some (mkSong "Yesterday" "Beatles" "/s/2").
Proof.
  destruct (@fetch_songs_items (mkClient "http://uke" true) Fixtures.links
              eq_refl) as [Hfetch [_ [Hget _]]].
  refine (conj eq_refl (conj Hfetch (Hget _ _ _))).
  vm_compute. auto.
Defined.

Lemma login_sticky_witness :
  existsb redirect [Some 200; None] = false
  /\ fetch_songs (logins (new_client "http://uke/") [Some 200; None])
                 (Some (Some Fixtures.links))
     = inl RuntimeError
  /\ is_logged_in (fst (login (mkClient "http://uke" true) (Some 500)))
     = true.
Proof.
  destruct (login_sticky "http://uke/" [Some 200; None]
              (Some (Some Fixtures.links))) as [Hraises Hlogin].
  exact (conj eq_refl
           (conj (proj2 Hraises eq_refl)
                 (proj2 (Hlogin (mkClient "http://uke" true) (Some 500))
                        eq_refl))).
Defined.

Lemma new_client_host_url_witness :
  client_host_url (new_client "http://uke//") = "http://uke"
  /\ client_host_url (new_client "http://uke//") <> ("http://uk" ++ "/")%string.
Proof.
  exact (conj eq_refl (proj2 (new_client_host_url "http://uke//") "http://uk")).
Defined.

Lemma two_ups : Forall moves_only [KeyUp; KeyUp].
Proof. repeat constructor; discriminate. Defined.

Lemma two_matches_render : renders html_ok "X" Fixtures.two_matches.
Proof.
  intros idx Hidx. change (len Fixtures.two_matches) with 2 in Hidx.
  assert (Hcases : idx = -1 \/ idx = 0 \/ idx = 1 \/ idx = 2 \/ idx = 3)
    by lia.
  destruct Hcases as [->|[->|[->|[->| ->]]]]; reflexivity.
Defined.

Lemma select_match_answer_witness :
  renders html_ok "X" Fixtures.two_matches
  /\ Forall moves_only [KeyUp; KeyUp]
  /\ select_match html_ok Fixtures.two_matches "X" tt
       ([KeyUp; KeyUp] ++ KeyEnter :: [KeyDown])
     = Ret (None, true) tt [KeyDown]
  /\ html_ok (formatted_text "R&B - Vv"
                (select_choices Fixtures.ampersand_match) 0) = false
  /\ select_match html_ok Fixtures.ampersand_match "R&B - Vv" tt [KeyEnter]
     = Raise ExpatError tt.
Proof.
  exact (conj two_matches_render (conj two_ups
           (conj (proj1 (@select_match_answer html_ok Fixtures.two_matches
                           "X" [KeyUp; KeyUp] [KeyDown])
                        two_matches_render two_ups)
                 (conj eq_refl
                    (proj2 (proj2 (@select_match_answer html_ok
                                     Fixtures.ampersand_match "R&B - Vv"
                                     [] []))
                           eq_refl [KeyEnter]))))).
Defined.

Lemma confirm_action_answer_witness :
  Forall moves_only [KeyUp; KeyUp]
  /\ confirm_action tt ([KeyUp; KeyUp] ++ KeyEnter :: []) = Ret true tt [].
Proof.
  exact (conj two_ups (@confirm_action_answer [KeyUp; KeyUp] [] two_ups)).
Defined.

Lemma confirm_break_answer_witness :
  Forall moves_only [KeyUp; KeyUp]
  /\ confirm_break tt ([KeyUp; KeyUp] ++ KeyEnter :: [])
     = Ret (false, false) tt [].
Proof.
  exact (conj two_ups (@confirm_break_answer [KeyUp; KeyUp] [] two_ups)).
Defined.

Lemma dialogs_end_witness :
  Forall moves_only [KeyUp; KeyUp]
  /\ renders html_ok "X" Fixtures.two_matches
  /\ select_match html_ok Fixtures.two_matches "X" tt
       ([KeyUp; KeyUp] ++ KeyCtrlC :: [])
     = SysExit 0 tt
  /\ confirm_break tt [KeyUp; KeyUp] = Waiting tt.
Proof.
  destruct (@dialogs_end html_ok Fixtures.two_matches "X" [KeyUp; KeyUp] []
              two_ups)
    as [[Hexit _] [_ [_ Hwait]]].
  exact (conj two_ups (conj two_matches_render
           (conj (Hexit two_matches_render) Hwait))).
Defined.

Lemma default_choice_is_best_witness :
  select_match html_ok
               (find_matches Fuzz.ratio song_t tied default_threshold)
               "ab - c" tt [KeyEnter]
  = Ret (Some (mkMatch "ab - c" (mkSong "ab" "c" "/t/0") 100), false) tt []
  /\ Fuzz.ratio (search_string song_t) "ab - e" <= 100.
Proof.
  assert (Hselect :
            select_match html_ok
                         (find_matches Fuzz.ratio song_t tied
                                       default_threshold)
                         "ab - c" tt [KeyEnter]
            = Ret (Some (mkMatch "ab - c" (mkSong "ab" "c" "/t/0") 100),
                   false) tt [])
    by (vm_compute; reflexivity).
  destruct (@default_choice_is_best Fuzz.ratio html_ok song_t tied
              default_threshold _ _ _ _ _ Hselect) as [_ [_ [_ Hbest]]].
  refine (conj Hselect (Hbest "ab - e" (mkSong "ab" "e" "/t/2") _)).
  vm_compute. auto.
Defined.

Lemma rewound_state_visited :
  In (mkState 1 [record match_a; record match_b]
              ["http://uke/songbook/a"; "http://uke/songbook/b"])
     (states None three_songs 3 rewind_keys).
Proof. vm_compute. auto. Defined.

Lemma records_come_from_the_catalog_witness :
  In (mkState 1 [record match_a; record match_b]
              ["http://uke/songbook/a"; "http://uke/songbook/b"])
     (states None three_songs 3 rewind_keys)
  /\ Forall (record_ok Fuzz.ratio None catalog three_songs)
            [record match_a; record match_b].
Proof.
  exact (conj rewound_state_visited
           (proj1 (@records_come_from_the_catalog Fuzz.ratio urljoin
                     html_ok host_url None catalog three_songs 3 0
                     rewind_keys []
                     _ (or_introl rewound_state_visited)))).
Defined.

Lemma opened_mirrors_records_witness :
  In (mkState 1 [record match_a; record match_b]
              ["http://uke/songbook/a"; "http://uke/songbook/b"])
     (states None three_songs 3 rewind_keys)
  /\ ["http://uke/songbook/a"; "http://uke/songbook/b"]
     = map (record_url urljoin host_url None)
           [record match_a; record match_b].
Proof.
  exact (conj rewound_state_visited
           (@opened_mirrors_records Fuzz.ratio urljoin html_ok host_url None
              catalog three_songs 3 0 rewind_keys [] _
              (or_introl rewound_state_visited))).
Defined.

Lemma loop_ends_at_length_witness :
  run None with_break 4 (pick ++ pick)
  = Some (Ret tt (mkState 3 [record match_a; record match_b]
                    ["http://uke/songbook/a"; "http://uke/songbook/b"]) [])
  /\ 3 = len with_break.
Proof.
  assert (Hrun : run None with_break 4 (pick ++ pick)
                 = Some (Ret tt (mkState 3 [record match_a; record match_b]
                                   ["http://uke/songbook/a";
                                    "http://uke/songbook/b"]) []))
    by (vm_compute; reflexivity).
  exact (conj Hrun
           (proj2 (@loop_ends_at_length Fuzz.ratio urljoin html_ok host_url
                     None catalog with_break 0 4 (pick ++ pick) [] _)
                  Hrun)).
Defined.

Lemma breaks_only_setlist_witness :
  truthy None = false
  /\ Forall (fun entry => entry = EntryBreak) [EntryBreak; EntryBreak]
  /\ run None [EntryBreak; EntryBreak] 3 pick
     = Some (Ret tt (mkState 2 [] []) pick).
Proof.
  assert (Hall : Forall (fun entry => entry = EntryBreak)
                        [EntryBreak; EntryBreak])
    by (repeat constructor).
  exact (conj eq_refl (conj Hall
           (@breaks_only_setlist Fuzz.ratio urljoin html_ok host_url None
              catalog [EntryBreak; EntryBreak] pick eq_refl Hall))).
Defined.


Lemma find_matches_raise_threshold_witness :
  60 <= 90
  /\ find_matches Fuzz.ratio song_t tied 90
     = filter (fun m => similarity m >=? 90)
              (find_matches Fuzz.ratio song_t tied 60).
Proof.
  assert (Hle : 60 <= 90) by lia.
  exact (conj Hle
           (@find_matches_raise_threshold Fuzz.ratio song_t tied 60 90 Hle)).
Defined.
